(** * Memory Melody (spot3): the playlist server, [server.js]

    A shallow embedding of the request handler, of Tag Inference
    ([getTagsFromGemini]) and of the Playlist Aggregator ([normaliseTrack],
    [clean], [buildPlaylist]), with the properties of the specification
    proved or refuted on it.

    Conventions of the embedding.
    - A JavaScript value that comes out of [JSON.parse] or [res.json()] is a
      [value]; [VUndefined] is what reading a missing property gives.
      Numbers are the integer-valued ones (a [Z], printed in decimal as
      JavaScript prints an integer below 10^21); [-0] behaves as [0] in
      everything modelled here (truthiness and printing).
    - Strings are Rocq strings, read as ASCII text: [toLowerCase] maps
      [A]-[Z] to [a]-[z] and [trim] removes tab, line feed, vertical tab,
      form feed, carriage return and space. Case mapping and white space
      outside ASCII are not modelled.
    - A thrown exception or a rejected promise is [Throw e].
    - What the outside world does (the two services, the order in which
      concurrent lookups complete, [Math.random]) is a [World]; what the
      JavaScript engine leaves to the implementation ([JSON.parse] itself,
      the algorithm behind [Array.prototype.sort], the precision of
      [Math.random]) is an [Engine]. *)

From Stdlib Require Import ZArith Ascii String List Permutation Lia.
From stdpp Require Import base option list gmap sets strings pretty.

Set Warnings "-register-all".

Local Open Scope string_scope.
Local Open Scope list_scope.
Local Open Scope Z_scope.

(** ** Errors and outcomes *)

Inductive error : Type :=
| TypeError       (* a property read on null/undefined, a call of a non-function *)
| SyntaxError     (* JSON.parse on text that is not JSON: the ParseError *)
| UpstreamError.  (* a service could not be reached, or its answer not read *)

Inductive outcome (A : Type) : Type :=
| Ok (a : A)
| Throw (e : error).
Arguments Ok {A} a.
Arguments Throw {A} e.

Definition bind {A B : Type} (m : outcome A) (k : A -> outcome B) : outcome B :=
  match m with
  | Ok a => k a
  | Throw e => Throw e
  end.

Notation "'let*' x := m 'in' k" := (bind m (fun x => k))
  (at level 10, x name, m at level 100, k at level 200).

Definition outcome_list {A : Type} (m : outcome A) : list A :=
  match m with Ok a => [a] | Throw _ => [] end.

(** ** JavaScript values *)

Inductive value : Type :=
| VUndefined
| VNull
| VBool (b : bool)
| VNum (n : Z)
| VStr (s : string)
| VArr (items : list value)
| VObj (props : list (string * value)).

Definition value_eq_dec : forall a b : value, {a = b} + {a <> b}.
Proof.
  fix IH 1. intros a b.
  destruct a as [| |x|x|x|xs|xs], b as [| |y|y|y|ys|ys];
    try (right; discriminate); try (left; reflexivity).
  - destruct (bool_eq_dec x y) as [->|N]; [left; reflexivity | right; congruence].
  - destruct (Z.eq_dec x y) as [->|N]; [left; reflexivity | right; congruence].
  - destruct (string_dec x y) as [->|N]; [left; reflexivity | right; congruence].
  - assert (D : {xs = ys} + {xs <> ys}).
    { revert ys. induction xs as [|x xs IHxs]; intros [|y ys];
        try (right; discriminate); try (left; reflexivity).
      destruct (IH x y) as [->|N]; [|right; congruence].
      destruct (IHxs ys) as [->|N]; [left; reflexivity | right; congruence]. }
    destruct D as [->|N]; [left; reflexivity | right; congruence].
  - assert (D : {xs = ys} + {xs <> ys}).
    { revert ys. induction xs as [|[k x] xs IHxs]; intros [|[k' y] ys];
        try (right; discriminate); try (left; reflexivity).
      destruct (string_dec k k') as [->|N]; [|right; congruence].
      destruct (IH x y) as [->|N]; [|right; congruence].
      destruct (IHxs ys) as [->|N]; [left; reflexivity | right; congruence]. }
    destruct D as [->|N]; [left; reflexivity | right; congruence].
Defined.

#[global] Instance value_eq : EqDecision value := value_eq_dec.

(** ToBoolean. *)
Definition truthy (v : value) : bool :=
  match v with
  | VUndefined | VNull => false
  | VBool b => b
  | VNum n => negb (n =? 0)
  | VStr s => negb (String.eqb s EmptyString)
  | VArr _ | VObj _ => true
  end.

Definition nullish (v : value) : bool :=
  match v with
  | VUndefined | VNull => true
  | _ => false
  end.

(** [a || b] on values. *)
Definition or_else (a b : value) : value := if truthy a then a else b.

(** The own property [k] of an object literal; the first binding is the one
    the object holds. *)
Fixpoint own (k : string) (props : list (string * value)) : option value :=
  match props with
  | [] => None
  | (k', v) :: rest => if String.eqb k k' then Some v else own k rest
  end.

(** [v?.k], for the property names this program reads ([name], [artist],
    [tracks], [size], ...), none of which is a built-in of [String.prototype],
    [Array.prototype] or [Object.prototype]: on an object it is the own
    property, on anything else it is undefined. *)
Definition opt_get (v : value) (k : string) : value :=
  match v with
  | VObj props => default VUndefined (own k props)
  | _ => VUndefined
  end.

(** [v.k]: the same, but on null and undefined the read throws. *)
Definition get (v : value) (k : string) : outcome value :=
  if nullish v then Throw TypeError else Ok (opt_get v k).

(** ToString, as a template literal applies it. An array prints its items
    joined by commas, null and undefined items as the empty text. An object
    prints through [Object.prototype.toString], unless it has an own
    [toString] property: parsed JSON holds no function, so that property
    shadows the built-in with something that cannot be called, [valueOf]
    gives the object back, and the conversion throws. *)
Fixpoint to_string (v : value) : outcome string :=
  match v with
  | VUndefined => Ok "undefined"
  | VNull => Ok "null"
  | VBool true => Ok "true"
  | VBool false => Ok "false"
  | VNum n => Ok (pretty n)
  | VStr s => Ok s
  | VArr items =>
      (fix join (l : list value) : outcome string :=
         match l with
         | [] => Ok EmptyString
         | x :: rest =>
             let* s := (if nullish x then Ok EmptyString else to_string x) in
             match rest with
             | [] => Ok s
             | _ => let* r := join rest in Ok (s +:+ "," +:+ r)
             end
         end) items
  | VObj props =>
      match own "toString" props with
      | Some _ => Throw TypeError
      | None => Ok "[object Object]"
      end
  end.

(** ** Strings *)

Definition lower_ascii (c : ascii) : ascii :=
  let n := nat_of_ascii c in
  if ((65 <=? n) && (n <=? 90))%nat then ascii_of_nat (n + 32) else c.

(** String.prototype.toLowerCase. *)
Fixpoint toLowerCase (s : string) : string :=
  match s with
  | EmptyString => EmptyString
  | String c rest => String (lower_ascii c) (toLowerCase rest)
  end.

Definition is_letter (c : ascii) : bool :=
  let n := nat_of_ascii c in
  (((65 <=? n) && (n <=? 90)) || ((97 <=? n) && (n <=? 122)))%nat.

Definition is_white (c : ascii) : bool :=
  let n := nat_of_ascii c in
  (((9 <=? n) && (n <=? 13)) || (n =? 32))%nat.

Fixpoint trim_start (s : string) : string :=
  match s with
  | String c rest => if is_white c then trim_start rest else s
  | EmptyString => EmptyString
  end.

(** String.prototype.trim. *)
Definition trim (s : string) : string :=
  String.rev (trim_start (String.rev (trim_start s))).

Definition LF : string := String "010"%char EmptyString.

(** [lines.join("\n")]. *)
Fixpoint join_lines (lines : list string) : string :=
  match lines with
  | [] => EmptyString
  | [l] => l
  | l :: rest => l +:+ LF +:+ join_lines rest
  end.

(** ** Tracks and their deduplication *)

Record Track : Type := mkTrack {
  name : value;
  artist : value;
  url : value;
  image : value;
  source : string
}.

#[global] Instance Track_eq : EqDecision Track.
Proof. solve_decision. Defined.

(** The key [clean] builds for a track:
    [`${t.artist}|||${t.name}`.toLowerCase()]. *)
Definition track_key (t : Track) : outcome string :=
  let* a := to_string (artist t) in
  let* n := to_string (name t) in
  Ok (toLowerCase (a +:+ "|||" +:+ n)).

(** The filter of [clean], with the set [seen] it closes over. *)
Fixpoint clean_from (seen : gset string) (tracks : list Track) : outcome (list Track) :=
  match tracks with
  | [] => Ok []
  | t :: rest =>
      let* key := track_key t in
      if decide (key ∈ seen) then clean_from seen rest
      else let* kept := clean_from ({[key]} ∪ seen) rest in Ok (t :: kept)
  end.

Definition clean (tracks : list Track) : outcome (list Track) :=
  clean_from ∅ tracks.

(** ** Normalisation of a raw track record *)

(** [v === s], for a string [s]. *)
Definition is_string (v : value) (s : string) : bool :=
  match v with
  | VStr s' => String.eqb s' s
  | _ => false
  end.

(** [items.find((i) => i.size === sz)]: the first item of that size,
    undefined when there is none; reading [size] of a null item throws. *)
Fixpoint find_size (items : list value) (sz : string) : outcome value :=
  match items with
  | [] => Ok VUndefined
  | i :: rest =>
      let* s := get i "size" in
      if is_string s sz then Ok i else find_size rest sz
  end.

(** [img?.find((i) => i.size === sz)?.["#text"]]: nothing on a missing
    image list; a list is searched; anything else has no [find] to call. *)
Definition image_text (img : value) (sz : string) : outcome value :=
  match img with
  | VUndefined | VNull => Ok VUndefined
  | VArr items => let* found := find_size items sz in Ok (opt_get found "#text")
  | _ => Throw TypeError
  end.

Definition normaliseTrack (track : value) (src : string) : outcome Track :=
  let* n := get track "name" in
  let* a := get track "artist" in
  let* u := get track "url" in
  let* img := get track "image" in
  let* medium := image_text img "medium" in
  let* picture :=
    (if truthy medium then Ok medium
     else let* large := image_text img "large" in Ok (or_else large VNull)) in
  Ok {| name := n;
        artist := or_else (or_else (opt_get a "name") a) (VStr "Unknown");
        url := or_else u VNull;
        image := picture;
        source := src |}.

(** ** The outside world and the engine *)

(** One request to the music-metadata service: the [method], the [tag] or
    [artist] parameter and the [limit] of the query string. *)
Record lastfm_call : Type := mkCall {
  api_method : string;
  subject : string;
  limit : Z
}.

Inductive call : Type :=
| CallGemini (message : string)
| CallLastfm (c : lastfm_call).

Record World : Type := mkWorld {
  (* the chunks streamed for a user message ([chunk.text] may be undefined);
     None when the call or the stream fails *)
  gemini : string -> option (list (option string));
  (* the parsed body of the response to the request sent at a position of a
     batch; None when fetch or res.json() rejects *)
  lastfm : nat -> nat -> lastfm_call -> option value;
  (* when the lookup at a position of a batch completes *)
  completion_time : nat -> nat -> nat;
  (* the successive results of Math.random(), as numerators k of k / 2^(1+b) *)
  random : nat -> Z
}.

(** What a comparison sort does between two calls of its comparator is up
    to the engine: it exchanges items, asks the comparator, and goes on
    according to the sign of the answer. *)
Inductive sort_prog : Type :=
| Done
| Exchange (i j : nat) (next : sort_prog)
| Compare (negative zero positive : sort_prog).

Record Engine : Type := mkEngine {
  (* JSON.parse; None when it throws a SyntaxError *)
  JSON_parse : string -> option value;
  (* the steps of Array.prototype.sort on an array of a given length *)
  sort_plan : nat -> sort_prog;
  (* Math.random() has 1 + random_bits bits *)
  random_bits : nat
}.

(** The calls made, next to the result: the monad of the code that talks to
    the services. *)
Definition io (A : Type) : Type := outcome A * list call.

Definition ret {A : Type} (a : A) : io A := (Ok a, []).
Definition lift {A : Type} (m : outcome A) : io A := (m, []).
Definition io_bind {A B : Type} (m : io A) (k : A -> io B) : io B :=
  match m with
  | (Ok a, made) => let (r, more) := k a in (r, made ++ more)
  | (Throw e, made) => (Throw e, made)
  end.

Notation "'let!' x := m 'in' k" := (io_bind m (fun x => k))
  (at level 10, x name, m at level 100, k at level 200).

(** ** Last.fm helpers *)

(** The request a helper sends, when its parameter can be put in the query
    string. *)
Definition lookup_call (method : string) (item : value) (lim : Z) : outcome lastfm_call :=
  let* s := to_string item in Ok (mkCall method s lim).

(** [lastfmTagTopTracks(tag, limit = 15)], with what [fetch] and [res.json()]
    give at the time of the call. *)
Definition lastfmTagTopTracks (fetch : lastfm_call -> option value)
    (tag : value) (lim : option Z) : outcome value :=
  let* c := lookup_call "tag.gettoptracks" tag (default 15 lim) in
  match fetch c with
  | None => Throw UpstreamError
  | Some data => Ok (or_else (opt_get (opt_get data "tracks") "track") (VArr []))
  end.

(** [lastfmArtistTopTracks(artist, limit = 8)]. *)
Definition lastfmArtistTopTracks (fetch : lastfm_call -> option value)
    (artist : value) (lim : option Z) : outcome value :=
  let* c := lookup_call "artist.gettoptracks" artist (default 8 lim) in
  match fetch c with
  | None => Throw UpstreamError
  | Some data => Ok (or_else (opt_get (opt_get data "toptracks") "track") (VArr []))
  end.

(** ** The playlist builder *)

(** [tracks.forEach((t) => allTracks.push(normaliseTrack(t, src)))]: what
    has been pushed when the loop ends, or when it throws. *)
Fixpoint push_normalised (items : list value) (src : string) : list Track :=
  match items with
  | [] => []
  | t :: rest =>
      match normaliseTrack t src with
      | Ok tr => tr :: push_normalised rest src
      | Throw _ => []
      end
  end.

Definition forEach_push (tracks : value) (src : string) : list Track :=
  match tracks with
  | VArr items => push_normalised items src
  | _ => []
  end.

Inductive group : Type := Genre | Artist | Era.

Definition group_index (g : group) : nat :=
  match g with Genre => 0 | Artist => 1 | Era => 2 end%nat.

Definition group_prefix (g : group) : string :=
  match g with Genre => "genre:" | Artist => "artist:" | Era => "era:" end.

(** The request of one mapper of a batch, each made with limit 40. *)
Definition mapper_call (g : group) (item : value) : outcome lastfm_call :=
  match g with
  | Artist => lookup_call "artist.gettoptracks" item 40
  | _ => lookup_call "tag.gettoptracks" item 40
  end.

(** What the mapper at position [i] of a batch pushes on [allTracks];
    whether its promise is then fulfilled or rejected is lost in
    [Promise.allSettled]. *)
Definition mapper_tracks (W : World) (g : group) (i : nat) (item : value) : list Track :=
  let fetched :=
    match g with
    | Artist => lastfmArtistTopTracks (lastfm W (group_index g) i) item (Some 40)
    | _ => lastfmTagTopTracks (lastfm W (group_index g) i) item (Some 40)
    end in
  match fetched, to_string item with
  | Ok tracks, Ok s => forEach_push tracks (group_prefix g +:+ s)
  | _, _ => []
  end.

(** The positions [0 .. n-1] of a batch in the order the lookups complete. *)
Fixpoint insert_by (time : nat -> nat) (i : nat) (l : list nat) : list nat :=
  match l with
  | [] => [i]
  | j :: rest =>
      if (time i <=? time j)%nat then i :: j :: rest
      else j :: insert_by time i rest
  end.

Definition completion_order (time : nat -> nat) (n : nat) : list nat :=
  foldr (insert_by time) [] (seq 0 n).

(** One [await Promise.allSettled(items.map(async ...))]: the requests go
    out in the order of the array, the tracks come in as lookups complete. *)
Definition batch_calls (g : group) (items : list value) : list call :=
  CallLastfm <$> concat ((fun item => outcome_list (mapper_call g item)) <$> items).

Definition batch_tracks (W : World) (g : group) (items : list value) : list Track :=
  concat ((fun i => match items !! i with
                    | Some item => mapper_tracks W g i item
                    | None => []
                    end)
            <$> completion_order (completion_time W (group_index g)) (length items)).

Definition run_batch (W : World) (g : group) (items : list value) : io (list Track) :=
  (Ok (batch_tracks W g items), batch_calls g items).

(** [(tags.field || []).slice(0, n)], as something [.map] can be called on. *)
Definition batch_items (tags : value) (field : string) (n : nat) : outcome (list value) :=
  let* f := get tags field in
  match or_else f (VArr []) with
  | VArr items => Ok (take n items)
  | _ => Throw TypeError
  end.

(** [allTracks] as it stands before [clean]. *)
Definition gather (W : World) (tags : value) : io (list Track) :=
  let! genres := lift (batch_items tags "culturalTags" 8) in
  let! by_genre := run_batch W Genre genres in
  let! artists := lift (batch_items tags "artists" 20) in
  let! by_artist := run_batch W Artist artists in
  let! eras := lift (batch_items tags "eraTags" 2) in
  let! by_era := run_batch W Era eras in
  ret (by_genre ++ by_artist ++ by_era).

(** *** Sorting with a random comparator *)

Definition swap {A : Type} (i j : nat) (l : list A) : list A :=
  match l !! i, l !! j with
  | Some x, Some y => <[i:=y]> (<[j:=x]> l)
  | _, _ => l
  end.

(** The sign of the [n]-th [Math.random() - 0.5]. *)
Definition random_sign (E : Engine) (W : World) (n : nat) : comparison :=
  Z.compare (random W n) (2 ^ Z.of_nat (random_bits E)).

(** The array after the sort, [calls] being the number of comparator calls
    made before. The comparator [() => Math.random() - 0.5] takes no
    argument: its answer is the next random sign. *)
Fixpoint run_sort {A : Type} (sign : nat -> comparison) (p : sort_prog)
    (arr : list A) (calls : nat) : list A :=
  match p with
  | Done => arr
  | Exchange i j next => run_sort sign next (swap i j arr) calls
  | Compare neg zero pos =>
      match sign calls with
      | Lt => run_sort sign neg arr (S calls)
      | Eq => run_sort sign zero arr (S calls)
      | Gt => run_sort sign pos arr (S calls)
      end
  end.

(** [unique.sort(() => Math.random() - 0.5)]. *)
Definition shuffle (E : Engine) (W : World) (unique : list Track) : list Track :=
  run_sort (random_sign E W) (sort_plan E (length unique)) unique 0.

Definition buildPlaylist (E : Engine) (W : World) (tags : value) : io (list Track) :=
  let! allTracks := gather W tags in
  let! unique := lift (clean allTracks) in
  ret (take 25 (shuffle E W unique)).

(** ** Tag inference *)

Definition buildUserMessage (input : value) : outcome string :=
  let* birth_year := get input "birth_year" in
  let* hometown := get input "hometown" in
  let* language := get input "language" in
  let* culture := get input "culture" in
  let* life_period := get input "life_period" in
  let* resonant_songs := get input "resonant_songs" in
  let* b := to_string (or_else birth_year (VStr "unknown")) in
  let* h := to_string (or_else hometown (VStr "unknown")) in
  let* l := to_string (or_else language (VStr "unknown")) in
  let* c := (if truthy culture
             then let* s := to_string culture in Ok ["Cultural Background: " +:+ s]
             else Ok []) in
  let* p := (if truthy life_period
             then let* s := to_string life_period in
                  Ok ["Specific Life Period to Focus On: " +:+ s]
             else Ok []) in
  let* r := to_string (or_else resonant_songs (VStr "none provided")) in
  Ok (join_lines (["Birth Year: " +:+ b;
                   "Where They Grew Up: " +:+ h;
                   "Language Spoken: " +:+ l]
                  ++ c ++ p ++ ["Songs They Resonated With: " +:+ r])).

Fixpoint drop_letters (s : string) : string :=
  match s with
  | String c rest => if is_letter c then drop_letters rest else s
  | EmptyString => EmptyString
  end.

(** The first [replace], of [/^```[a-z]*\n?/i] by the empty string: three
    backquotes at the very start, the letters after them and one line feed. *)
Definition strip_opening (s : string) : string :=
  match s with
  | String "`" (String "`" (String "`" rest)) =>
      match drop_letters rest with
      | String "010" rest' => rest'
      | rest' => rest'
      end
  | _ => s
  end.

(** The second [replace], of [/```$/] by the empty string: three backquotes
    at the very end. *)
Fixpoint strip_closing (s : string) : string :=
  match s with
  | EmptyString => EmptyString
  | String c rest =>
      if String.eqb s "```" then EmptyString else String c (strip_closing rest)
  end.

(** [raw.replace(...).replace(...).trim()]. *)
Definition strip_fences (raw : string) : string :=
  trim (strip_closing (strip_opening raw)).

(** [raw += chunk.text ?? (empty string)] over the stream. *)
Fixpoint collect (chunks : list (option string)) : string :=
  match chunks with
  | [] => EmptyString
  | chunk :: rest => default EmptyString chunk +:+ collect rest
  end.

Definition getTagsFromGemini (E : Engine) (W : World) (userInput : value) : io value :=
  let! message := lift (buildUserMessage userInput) in
  let! chunks := (match gemini W message with
                  | Some chunks => Ok chunks
                  | None => Throw UpstreamError
                  end, [CallGemini message]) in
  lift (match JSON_parse E (strip_fences (collect chunks)) with
        | Some tags => Ok tags
        | None => Throw SyntaxError
        end).

(** ** The route [POST /api/generate-playlist] *)

Inductive response : Type :=
| Status400 (message : string)
| Status200 (tags : value) (playlist : list Track)
| Status500 (e : error).

(** [!userInput.birth_year && !userInput.hometown && !userInput.language]. *)
Definition nothing_given (userInput : value) : outcome bool :=
  let* birth_year := get userInput "birth_year" in
  if truthy birth_year then Ok false
  else let* hometown := get userInput "hometown" in
       if truthy hometown then Ok false
       else let* language := get userInput "language" in
            Ok (negb (truthy language)).

Definition refusal : response :=
  Status400 "Please provide at least birth year, hometown, or language.".

Definition handler (E : Engine) (W : World) (body : value) : response * list call :=
  let attempt : io response :=
    let! refuse := lift (nothing_given body) in
    if refuse
    then ret refusal
    else let! tags := getTagsFromGemini E W body in
         let! playlist := buildPlaylist E W tags in
         ret (Status200 tags playlist) in
  match attempt with
  | (Ok r, made) => (r, made)
  | (Throw e, made) => (Status500 e, made)
  end.

(** ** The notions of the specification *)

Record TagSet : Type := mkTagSet {
  eraTags : list string;
  culturalTags : list string;
  artists : list string;
  countryISO : string
}.

(** A Tag Set as the object Tag Inference hands to the aggregator. *)
Definition tagset_value (ts : TagSet) : value :=
  VObj [("eraTags", VArr (VStr <$> eraTags ts));
        ("culturalTags", VArr (VStr <$> culturalTags ts));
        ("artists", VArr (VStr <$> artists ts));
        ("countryISO", VStr (countryISO ts))].

(** The lower-cased (artist, name) pair of a track. *)
Definition track_pair (t : Track) : outcome (string * string) :=
  let* a := to_string (artist t) in
  let* n := to_string (name t) in
  Ok (toLowerCase a, toLowerCase n).

(** The pairs of the tracks of a list, as a set: its size is the number of
    unique tracks of the list. *)
Definition pairs_of (tracks : list Track) : list (string * string) :=
  t ← tracks; outcome_list (track_pair t).

Definition unique_pairs (tracks : list Track) : gset (string * string) :=
  list_to_set (pairs_of tracks).

(** The requests of the batches for a Tag Set. *)
Definition tag_request (tag : string) : call :=
  CallLastfm {| api_method := "tag.gettoptracks"; subject := tag; limit := 40 |}.

Definition artist_request (artist : string) : call :=
  CallLastfm {| api_method := "artist.gettoptracks"; subject := artist; limit := 40 |}.

(** The world in which the music-metadata service cannot be reached. *)
Definition unreachable (W : World) : World :=
  {| gemini := gemini W;
     lastfm := fun _ _ _ => None;
     completion_time := completion_time W;
     random := random W |}.

(** The world in which every lookup that fails in [W] is answered, with a
    body that has no track. *)
Definition forgiving (W : World) : World :=
  {| gemini := gemini W;
     lastfm := fun g i c => Some (default (VObj []) (lastfm W g i c));
     completion_time := completion_time W;
     random := random W |}.

(** The entries of the image list of a raw record. *)
Definition image_entries (props : list (string * value)) : list value :=
  match own "image" props with
  | Some (VArr items) => items
  | _ => []
  end.

Definition has_size (sz : string) (i : value) : bool :=
  is_string (opt_get i "size") sz.

(** The text of the first entry of a size, undefined without such an entry. *)
Definition entry_text (sz : string) (props : list (string * value)) : value :=
  opt_get (default VUndefined (List.find (has_size sz) (image_entries props))) "#text".

(** The image field is missing, null, or a list without a null item. *)
Definition image_list_ok (props : list (string * value)) : bool :=
  match own "image" props with
  | None | Some VUndefined | Some VNull => true
  | Some (VArr items) => forallb (fun i => negb (nullish i)) items
  | Some _ => false
  end.

(** *** How likely an order is *)

(** The most comparator calls a sort can make. *)
Fixpoint comparisons (p : sort_prog) : nat :=
  match p with
  | Done => 0
  | Exchange _ _ next => comparisons next
  | Compare neg zero pos =>
      S (Nat.max (comparisons neg) (Nat.max (comparisons zero) (comparisons pos)))
  end.

(** Every sequence of [h] results of [Math.random()], each of them one of
    the [2^(1+b)] numerators: the equally likely outcomes of the random
    source over [h] calls. *)
Fixpoint all_draws (b h : nat) : list (list Z) :=
  match h with
  | O => [[]]
  | S h' => k ← seqZ 0 (2 ^ Z.of_nat (S b)); cons k <$> all_draws b h'
  end.

Definition with_draws (W : World) (draws : list Z) : World :=
  {| gemini := gemini W;
     lastfm := lastfm W;
     completion_time := completion_time W;
     random := fun n => nth n draws 0 |}.

(** The shuffled array under each outcome of the random source. *)
Definition shuffle_outcomes (E : Engine) (W : World) (unique : list Track) : list (list Track) :=
  (fun draws => shuffle E (with_draws W draws) unique)
    <$> all_draws (random_bits E) (comparisons (sort_plan E (length unique))).

(** A uniform random permutation: each of the [n!] orders of the collection
    comes out under one in [n!] of the outcomes of the random source. *)
Definition uniform_shuffle (E : Engine) (W : World) (unique : list Track) : Prop :=
  forall target : list Track,
    target ≡ₚ unique ->
    (fact (length unique) * length (filter (fun o => o = target) (shuffle_outcomes E W unique))
     = length (shuffle_outcomes E W unique))%nat.

(** ** Sample data *)

(** Insertion sort, as an engine may run it on a short array: item [j] sinks
    while the comparator says that its left neighbour is greater. *)
Fixpoint sink (j : nat) (next : sort_prog) : sort_prog :=
  match j with
  | O => next
  | S j' => Compare next next (Exchange j' j (sink j' next))
  end.

Definition insertion_plan (n : nat) : sort_prog :=
  foldr sink Done (seq 1 (n - 1)).

(** An engine that sorts by insertion, draws 52 bits, and parses the two
    texts the samples need. *)
Definition sample_engine : Engine :=
  {| JSON_parse := fun s =>
       if String.eqb s "{}" then Some (VObj [])
       else if String.eqb s "[]" then Some (VArr [])
       else None;
     sort_plan := insertion_plan;
     random_bits := 51 |}.

(** The same with a [Math.random] of two bits, so that the outcomes of the
    random source can be listed. *)
Definition two_bit_engine : Engine :=
  {| JSON_parse := JSON_parse sample_engine;
     sort_plan := insertion_plan;
     random_bits := 1 |}.

Definition raw_track (n a : string) : value :=
  VObj [("name", VStr n); ("artist", VObj [("name", VStr a)]);
        ("url", VStr "https://www.last.fm/music/x")].

Definition nine_tracks : value :=
  VArr ((fun n => raw_track n "Fela Kuti")
          <$> ["a"; "b"; "c"; "d"; "e"; "f"; "g"; "h"; "i"]).

(** A world in which every artist has nine top tracks, the tag [highlife]
    has two, and every other lookup fails. *)
Definition sample_world : World :=
  {| gemini := fun _ => Some [Some "{"; None; Some "}"];
     lastfm := fun _ _ c =>
       if String.eqb (api_method c) "artist.gettoptracks"
       then Some (VObj [("toptracks", VObj [("track", nine_tracks)])])
       else if String.eqb (subject c) "highlife"
       then Some (VObj [("tracks",
                         VObj [("track",
                                VArr [raw_track "Water No Get Enemy" "FELA KUTI";
                                      raw_track "A" "fela kuti"])])])
       else None;
     completion_time := fun _ i => (7 - i)%nat;
     random := fun n => if Nat.even n then 0 else 2 ^ 52 |}.

Definition sample_tags : TagSet :=
  {| eraTags := ["1960s"; "1970s"];
     culturalTags := ["highlife"; "juju"];
     artists := ["Fela Kuti"];
     countryISO := "Nigeria" |}.

Definition sample_gathered : list Track :=
  Eval vm_compute in
    match gather sample_world (tagset_value sample_tags) with
    | (Ok allTracks, _) => allTracks
    | _ => []
    end.

Definition sample_unique : list Track :=
  Eval vm_compute in
    match clean sample_gathered with
    | Ok unique => unique
    | _ => []
    end.

Definition sample_requests : list call :=
  Eval vm_compute in snd (gather sample_world (tagset_value sample_tags)).

Definition three_tracks : list Track :=
  [ {| name := VStr "Zombie"; artist := VStr "Fela Kuti"; url := VNull;
       image := VNull; source := "artist:Fela Kuti" |};
    {| name := VStr "Lady"; artist := VStr "Fela Kuti"; url := VNull;
       image := VNull; source := "artist:Fela Kuti" |};
    {| name := VStr "Joromi"; artist := VStr "Victor Uwaifo"; url := VNull;
       image := VNull; source := "genre:highlife" |} ].

Definition colliding_first : Track :=
  {| name := VStr "c"; artist := VStr "a|||b"; url := VNull; image := VNull;
     source := "genre:x" |}.

Definition colliding_second : Track :=
  {| name := VStr "b|||c"; artist := VStr "a"; url := VNull; image := VNull;
     source := "genre:x" |}.

Definition record_without_artist : list (string * value) :=
  [("name", VStr "Zombie");
   ("image", VArr [VObj [("#text", VStr "https://img/small.png"); ("size", VStr "small")]])].

Definition record_with_empty_medium : list (string * value) :=
  [("name", VStr "Zombie");
   ("artist", VObj [("name", VStr "Fela Kuti")]);
   ("image", VArr [VObj [("#text", VStr EmptyString); ("size", VStr "medium")];
                   VObj [("#text", VStr "https://img/large.png"); ("size", VStr "large")]])].

Definition body_with_zero_birth_year : list (string * value) :=
  [("birth_year", VNum 0)].

Definition body_with_empty_fields : list (string * value) :=
  [("birth_year", VNum 0); ("hometown", VStr EmptyString); ("language", VStr EmptyString)].

Definition body_with_hometown : list (string * value) :=
  [("birth_year", VStr EmptyString); ("hometown", VStr "Lagos")].

(** A fenced answer of the model, streamed in pieces, with a line feed after
    the closing fence. *)
Definition fenced_chunks : list (option string) :=
  [Some "```json"; Some (LF +:+ "{}"); None; Some (LF +:+ "```" +:+ LF)].

(** The same answer with the line feed before the opening fence instead. *)
Definition fenced_late : string :=
  LF +:+ "```json" +:+ LF +:+ "{}" +:+ LF +:+ "```".

Definition fenced_world : World :=
  {| gemini := fun _ => Some fenced_chunks;
     lastfm := lastfm sample_world;
     completion_time := completion_time sample_world;
     random := random sample_world |}.

(** ** Notions for the further properties *)

(** A request as [buildPlaylist] sends them: one of the two methods, with
    limit 40. *)
Definition batch_request (c : call) : Prop :=
  exists method s,
    c = CallLastfm {| api_method := method; subject := s; limit := 40 |} /\
    (method = "tag.gettoptracks" \/ method = "artist.gettoptracks").

(** A value that is not an object or an array: what a form field holds. *)
Definition primitive (v : value) : bool :=
  match v with
  | VArr _ | VObj _ => false
  | _ => true
  end.

(** A body whose fields are falsy but for the hometown. *)
Definition form_body : list (string * value) :=
  [("birth_year", VNum 1948); ("hometown", VStr "Lagos"); ("language", VStr "Yoruba");
   ("culture", VStr EmptyString); ("resonant_songs", VNull)].

Definition unreachable_gemini (W : World) : World :=
  {| gemini := fun _ => None;
     lastfm := lastfm W;
     completion_time := completion_time W;
     random := random W |}.

(** A record whose image is a text instead of a list. *)
Definition record_with_image_text : list (string * value) :=
  [("name", VStr "Zombie"); ("image", VStr "https://img/x.png")].

(** What the model gives when it answers with texts instead of lists. *)
Definition tags_with_text : value :=
  VObj [("culturalTags", VStr "highlife, juju"); ("artists", VArr [VStr "Fela Kuti"])].

(** A list of records of which the second cannot be normalised. *)
Definition records_with_a_null : list value :=
  [raw_track "Zombie" "Fela Kuti"; VNull; raw_track "Lady" "Fela Kuti"].

(** * Properties *)

(** ** Values and strings *)

Lemma get_not_nullish (v : value) (k : string) :
  nullish v = false -> get v k = Ok (opt_get v k).
Proof. unfold get. by intros ->. Qed.

Lemma get_object (props : list (string * value)) (k : string) :
  get (VObj props) k = Ok (default VUndefined (own k props)).
Proof. reflexivity. Qed.

Lemma toLowerCase_app (s1 s2 : string) :
  toLowerCase (s1 +:+ s2) = toLowerCase s1 +:+ toLowerCase s2.
Proof. induction s1 as [|c s1 IH]; simpl; [reflexivity | by rewrite IH]. Qed.

Lemma string_length_app (s1 s2 : string) :
  String.length (s1 +:+ s2) = (String.length s1 + String.length s2)%nat.
Proof. induction s1 as [|c s1 IH]; simpl; [reflexivity | by rewrite IH]. Qed.

(** ** Keys and pairs *)

(** The key is the two halves of the pair around the separator. *)
Lemma track_key_of_pair (t : Track) :
  track_key t = let* p := track_pair t in Ok (fst p +:+ "|||" +:+ snd p).
Proof.
  unfold track_key, track_pair.
  destruct (to_string (artist t)) as [a|e]; simpl; [|reflexivity].
  destruct (to_string (name t)) as [n|e]; simpl; [|reflexivity].
  by rewrite !toLowerCase_app.
Qed.

Lemma same_pair_same_key (t u : Track) :
  track_pair t = track_pair u -> track_key t = track_key u.
Proof. intros H. by rewrite !track_key_of_pair, H. Qed.

Lemma key_pair (t : Track) (key : string) :
  track_key t = Ok key -> exists p, track_pair t = Ok p.
Proof.
  rewrite track_key_of_pair. destruct (track_pair t); [eauto | discriminate].
Qed.

Lemma NoDup_pairs_of_keys (out : list Track) :
  NoDup (track_key <$> out) -> NoDup (track_pair <$> out).
Proof.
  induction out as [|t out IH]; rewrite ?fmap_cons; [constructor|].
  intros ND. apply NoDup_cons in ND as [Fresh ND]. constructor; [|by apply IH].
  intros In. apply Fresh.
  apply list_elem_of_fmap in In as (u & E & In).
  apply list_elem_of_fmap. exists u. split; [by apply same_pair_same_key | done].
Qed.

Lemma pairs_of_defined (tracks : list Track) :
  (forall t, t ∈ tracks -> exists p, track_pair t = Ok p) ->
  track_pair <$> tracks = Ok <$> pairs_of tracks.
Proof.
  unfold pairs_of. induction tracks as [|t tracks IH]; intros All; [reflexivity|].
  destruct (All t) as [p P]; [by left|].
  rewrite fmap_cons, bind_cons, P. simpl. f_equal.
  apply IH. intros u In. apply All. by right.
Qed.

(** ** Deduplication *)

Section Deduplication.

Implicit Types (seen : gset string) (tracks rest out kept : list Track).
Implicit Types (t u : Track) (key : string) (e : error).

(** What one step of the filter does, read backwards. *)
Lemma clean_from_cons_Ok seen t rest out :
  clean_from seen (t :: rest) = Ok out ->
  exists key,
    track_key t = Ok key /\
    ((key ∈ seen /\ clean_from seen rest = Ok out) \/
     ((key ∉ seen) /\
      exists kept, clean_from ({[key]} ∪ seen) rest = Ok kept /\ out = t :: kept)).
Proof.
  simpl. destruct (track_key t) as [key|e]; simpl; [|discriminate].
  intros C. exists key. split; [reflexivity|]. case_decide; [by left|].
  destruct (clean_from ({[key]} ∪ seen) rest) as [kept|e]; [|discriminate].
  injection C as <-. right. eauto.
Qed.

Lemma clean_from_cons_Throw seen t rest e :
  clean_from seen (t :: rest) = Throw e ->
  track_key t = Throw e \/ exists seen', clean_from seen' rest = Throw e.
Proof.
  simpl. destruct (track_key t) as [key|e']; simpl; [|intros [= ->]; by left].
  case_decide; [by eauto|].
  destruct (clean_from ({[key]} ∪ seen) rest) as [kept|e'] eqn:C; simpl; [discriminate|].
  intros [= ->]. eauto.
Qed.

Ltac clean_inv C key kept :=
  let K := fresh "K" in
  let Seen := fresh "Seen" in
  apply clean_from_cons_Ok in C as (key & K & [[Seen C] | (Seen & kept & C & ->)]).

(** [clean] throws only where a key cannot be built. *)
Lemma clean_from_Throw seen tracks e :
  clean_from seen tracks = Throw e -> exists t, t ∈ tracks /\ track_key t = Throw e.
Proof.
  revert seen. induction tracks as [|t rest IH]; intros seen C; [discriminate|].
  apply clean_from_cons_Throw in C as [K|[seen' C]].
  - exists t. split; [by left | done].
  - destruct (IH _ C) as (u & In & K). exists u. split; [by right | done].
Qed.

Lemma clean_from_keys seen tracks out t :
  clean_from seen tracks = Ok out -> t ∈ tracks -> exists key, track_key t = Ok key.
Proof.
  revert seen out. induction tracks as [|u rest IH]; intros seen out C In.
  - by apply elem_of_nil in In.
  - clean_inv C key kept; (apply elem_of_cons in In as [->|In]; [eauto | by eapply IH]).
Qed.

Lemma clean_from_sublist seen tracks out :
  clean_from seen tracks = Ok out -> out `sublist_of` tracks.
Proof.
  revert seen out. induction tracks as [|t rest IH]; intros seen out C.
  - by injection C as <-.
  - clean_inv C key kept; [apply sublist_cons | apply sublist_skip]; eauto.
Qed.

(** No key of a kept track was seen before. *)
Lemma clean_from_fresh seen tracks out t key :
  clean_from seen tracks = Ok out -> t ∈ out -> track_key t = Ok key -> key ∉ seen.
Proof.
  revert seen out. induction tracks as [|u rest IH]; intros seen out C In Kt.
  - injection C as <-. by apply elem_of_nil in In.
  - clean_inv C k kept; [by eapply IH|].
    apply elem_of_cons in In as [->|In]; [congruence|].
    specialize (IH _ _ C In Kt). set_solver.
Qed.

Lemma clean_from_NoDup seen tracks out :
  clean_from seen tracks = Ok out -> NoDup (track_key <$> out).
Proof.
  revert seen out. induction tracks as [|t rest IH]; intros seen out C.
  - injection C as <-. constructor.
  - clean_inv C key kept; [by eapply IH|].
    rewrite fmap_cons. constructor; [|by eapply IH].
    intros In. apply list_elem_of_fmap in In as (u & Ku & In).
    rewrite K in Ku. symmetry in Ku.
    pose proof (clean_from_fresh _ _ _ _ _ C In Ku). set_solver.
Qed.

(** A kept track stands where its key occurs first. *)
Lemma clean_from_first seen tracks out t :
  clean_from seen tracks = Ok out -> t ∈ out ->
  exists before after,
    tracks = before ++ t :: after /\
    forall u, u ∈ before -> track_key u <> track_key t.
Proof.
  revert seen out. induction tracks as [|u rest IH]; intros seen out C In.
  - injection C as <-. by apply elem_of_nil in In.
  - assert (Later : forall seen' kept',
               clean_from seen' rest = Ok kept' -> t ∈ kept' ->
               (forall key, track_key t = Ok key -> track_key u <> Ok key) ->
               exists before after,
                 u :: rest = before ++ t :: after /\
                 forall v, v ∈ before -> track_key v <> track_key t).
    { intros seen' kept' C' In' Other.
      destruct (IH _ _ C' In') as (before & after & -> & First).
      exists (u :: before), after. split; [done|].
      intros v Iv. apply elem_of_cons in Iv as [->|Iv]; [|by apply First].
      destruct (clean_from_keys _ _ _ t C') as [key Kt].
      { apply elem_of_app. right. by left. }
      rewrite Kt. by apply Other. }
    clean_inv C k kept.
    + apply (Later _ _ C In). intros key Kt Ku.
      apply (clean_from_fresh _ _ _ _ _ C In Kt). congruence.
    + apply elem_of_cons in In as [->|In].
      * exists [], rest. split; [done|]. intros v Iv. by apply elem_of_nil in Iv.
      * apply (Later _ _ C In). intros key Kt Ku.
        pose proof (clean_from_fresh _ _ _ _ _ C In Kt) as Fresh.
        assert (key = k) as -> by congruence. set_solver.
Qed.

(** Every key of the input is the key of a kept track, or was seen. *)
Lemma clean_from_covers seen tracks out t key :
  clean_from seen tracks = Ok out -> t ∈ tracks -> track_key t = Ok key ->
  key ∈ seen \/ exists u, u ∈ out /\ track_key u = Ok key.
Proof.
  revert seen out. induction tracks as [|u rest IH]; intros seen out C In Kt.
  - by apply elem_of_nil in In.
  - clean_inv C k kept; apply elem_of_cons in In as [->|In].
    + left. congruence.
    + by eapply IH.
    + right. exists u. split; [by left | done].
    + destruct (IH _ _ C In Kt) as [Was|(v & ? & ?)].
      * apply elem_of_union in Was as [Was|Was]; [|by left].
        apply elem_of_singleton in Was as ->.
        right. exists u. split; [by left | done].
      * right. exists v. split; [by right | done].
Qed.

(** The filter run on a prefix of the list gives a prefix of what it gives
    on the list. *)
Lemma clean_from_prefix seen tracks rest out :
  clean_from seen (tracks ++ rest) = Ok out ->
  exists kept more, clean_from seen tracks = Ok kept /\ out = kept ++ more.
Proof.
  revert seen out. induction tracks as [|t tracks IH]; intros seen out C.
  - by exists [], out.
  - rewrite <- app_comm_cons in C. clean_inv C key kept0.
    + destruct (IH _ _ C) as (kept & more & P & ->).
      exists kept, more. split; [|done].
      simpl. rewrite K. simpl. by rewrite decide_True.
    + destruct (IH _ _ C) as (kept & more & P & ->).
      exists (t :: kept), more. split; [|done].
      simpl. rewrite K. simpl. rewrite decide_False by done. by rewrite P.
Qed.

(** A track whose key no earlier track has is kept, right after what is kept
    of the tracks before it. *)
Lemma clean_from_keeps_fresh seen tracks t rest out key :
  clean_from seen (tracks ++ t :: rest) = Ok out ->
  track_key t = Ok key -> (key ∉ seen) ->
  (forall u, u ∈ tracks -> track_key u <> Ok key) ->
  exists kept more, clean_from seen tracks = Ok kept /\ out = kept ++ t :: more.
Proof.
  revert seen out. induction tracks as [|u tracks IH]; intros seen out C Kt Fresh First.
  - simpl in C. clean_inv C key' kept0.
    + congruence.
    + by exists [], kept0.
  - rewrite <- app_comm_cons in C. clean_inv C key' kept0.
    + destruct (IH _ _ C Kt Fresh) as (kept & more & P & ->).
      { intros v In. apply First. by right. }
      exists kept, more. split; [|done].
      simpl. rewrite K. simpl. by rewrite decide_True.
    + assert (key' <> key) as Other.
      { intros ->. by apply (First u); [left|]. }
      destruct (IH _ _ C Kt) as (kept & more & P & ->).
      { intros [In|In]%elem_of_union; [|done].
        apply elem_of_singleton in In. congruence. }
      { intros v In. apply First. by right. }
      exists (u :: kept), more. split; [|done].
      simpl. rewrite K. simpl. rewrite decide_False by done. by rewrite P.
Qed.

(** Whether two tracks have the same key can be decided. *)
Lemma track_key_eq_dec t u : {track_key t = track_key u} + {track_key t <> track_key u}.
Proof. repeat decide equality. Qed.

(** The tracks kept are no more than the pairs of the input. *)
Lemma clean_length tracks out :
  clean tracks = Ok out -> (length out <= size (unique_pairs tracks))%nat.
Proof.
  intros C. unfold clean in C.
  pose proof (clean_from_sublist _ _ _ C) as Sub.
  assert (Def : forall t, t ∈ out -> exists p, track_pair t = Ok p).
  { intros t In. destruct (clean_from_keys _ _ _ t C) as [key K].
    - eapply elem_of_sublist; [exact In | exact Sub].
    - by eapply key_pair. }
  pose proof (NoDup_pairs_of_keys _ (clean_from_NoDup _ _ _ C)) as ND.
  rewrite (pairs_of_defined _ Def) in ND. apply NoDup_fmap_1 in ND.
  assert (Len : length out = length (pairs_of out)).
  { rewrite <- (length_fmap track_pair), (pairs_of_defined _ Def). by rewrite length_fmap. }
  rewrite Len, <- (size_list_to_set (C:=gset (string * string))) by done.
  apply subseteq_size. unfold unique_pairs.
  intros p In. apply elem_of_list_to_set. apply elem_of_list_to_set in In.
  eapply elem_of_sublist; [exact In|]. unfold pairs_of. by apply bind_sublist.
Qed.

End Deduplication.

(** C10. Two tracks with different (artist, name) pairs that [clean] takes
    for duplicates: the key of both is [a|||b|||c], and of the two only the
    one seen first is kept. *)
Theorem clean_separator_collision :
  exists t u : Track,
    track_pair t = Ok ("a|||b", "c") /\
    track_pair u = Ok ("a", "b|||c") /\
    track_pair t <> track_pair u /\
    track_key t = Ok "a|||b|||c" /\
    track_key u = Ok "a|||b|||c" /\
    clean [t; u] = Ok [t] /\
    clean [u; t] = Ok [u].
Proof.
  exists colliding_first, colliding_second.
  repeat split; try (vm_compute; reflexivity); discriminate.
Qed.

(** C1 as stated fails: of these two tracks the second is the first, and the
    only one, with its (artist, name) pair, and [clean] drops it, so that no
    track kept has its pair: its key is the key of the track before it. *)
Lemma first_of_its_pair_is_dropped :
  exists out,
    clean ([colliding_first] ++ colliding_second :: []) = Ok out /\
    track_pair colliding_second = Ok ("a", "b|||c") /\
    (forall v, v ∈ [colliding_first] -> track_pair v <> track_pair colliding_second) /\
    (forall t, t ∈ out -> track_pair t <> track_pair colliding_second) /\
    (colliding_second ∉ out).
Proof.
  exists [colliding_first].
  assert (Other : forall v, v ∈ [colliding_first] ->
                    track_pair v <> track_pair colliding_second).
  { intros v In. apply list_elem_of_singleton in In as ->. discriminate. }
  repeat split; try (vm_compute; reflexivity); try exact Other.
  intros In. apply list_elem_of_singleton in In. discriminate.
Qed.

(** ** Normalisation *)

Lemma find_size_find (items : list value) (sz : string) :
  Forall (fun i => nullish i = false) items ->
  find_size items sz = Ok (default VUndefined (List.find (has_size sz) items)).
Proof.
  induction 1 as [|i items Hi _ IH]; simpl; [reflexivity|].
  rewrite (get_not_nullish _ _ Hi). simpl. unfold has_size.
  by destruct (is_string (opt_get i "size") sz).
Qed.

Lemma image_text_entry (props : list (string * value)) (sz : string) :
  image_list_ok props = true ->
  image_text (default VUndefined (own "image" props)) sz = Ok (entry_text sz props).
Proof.
  unfold image_list_ok, entry_text, image_entries.
  destruct (own "image" props) as [[| | | | |items|]|]; simpl; try done.
  intros Hall. rewrite forallb_forall in Hall.
  rewrite find_size_find; [done|].
  apply Forall_forall. intros i Hi%list_elem_of_In. specialize (Hall i Hi).
  by destruct (nullish i).
Qed.

Lemma entry_text_none (sz : string) (props : list (string * value)) :
  (forall i, i ∈ image_entries props -> has_size sz i = false) ->
  entry_text sz props = VUndefined.
Proof.
  unfold entry_text. intros None.
  destruct (List.find (has_size sz) (image_entries props)) as [i|] eqn:F; [|done].
  apply find_some in F as [In Sz]. apply list_elem_of_In in In.
  rewrite (None i In) in Sz. discriminate.
Qed.

(** The record a well-formed raw record is normalised to. *)
Lemma normaliseTrack_object (props : list (string * value)) (src : string) :
  image_list_ok props = true ->
  normaliseTrack (VObj props) src =
  Ok {| name := default VUndefined (own "name" props);
        artist := or_else (or_else (opt_get (default VUndefined (own "artist" props)) "name")
                             (default VUndefined (own "artist" props)))
                    (VStr "Unknown");
        url := or_else (default VUndefined (own "url" props)) VNull;
        image := or_else (entry_text "medium" props)
                   (or_else (entry_text "large" props) VNull);
        source := src |}.
Proof.
  intros Ok_images. unfold normaliseTrack. rewrite !get_object. cbn [bind].
  rewrite !(image_text_entry _ _ Ok_images). cbn [bind].
  assert (Pick : forall a b, or_else a b = if truthy a then a else b) by reflexivity.
  rewrite (Pick (entry_text "medium" props)).
  by destruct (truthy (entry_text "medium" props)).
Qed.

(** C7, amended. A raw track record whose image list, if it has one, holds
    no null item is normalised without an exception: the artist is
    "Unknown" when the record has no artist field; the image is null when
    no entry of the list is of medium or large size; and in general the
    image is the text of the first medium entry if that is not empty,
    else the text of the first large entry if that is not empty, else
    null. *)
Theorem normaliseTrack_fallbacks (props : list (string * value)) (src : string) :
  image_list_ok props = true ->
  exists t,
    normaliseTrack (VObj props) src = Ok t /\
    (own "artist" props = None -> artist t = VStr "Unknown") /\
    ((forall i, i ∈ image_entries props ->
        has_size "medium" i = false /\ has_size "large" i = false) ->
     image t = VNull) /\
    image t = or_else (entry_text "medium" props)
                (or_else (entry_text "large" props) VNull).
Proof.
  intros Ok_images. eexists. split; [by apply normaliseTrack_object|]. simpl.
  split; [by intros ->|]. split; [|reflexivity].
  intros None.
  rewrite (entry_text_none "medium"), (entry_text_none "large");
    [reflexivity | |]; intros i In; by apply None.
Qed.

Lemma normaliseTrack_fallbacks_witness :
  image_list_ok record_without_artist = true /\
  exists t,
    normaliseTrack (VObj record_without_artist) "genre:highlife" = Ok t /\
    (own "artist" record_without_artist = None -> artist t = VStr "Unknown") /\
    ((forall i, i ∈ image_entries record_without_artist ->
        has_size "medium" i = false /\ has_size "large" i = false) ->
     image t = VNull) /\
    image t = or_else (entry_text "medium" record_without_artist)
                (or_else (entry_text "large" record_without_artist) VNull).
Proof.
  split; [reflexivity|].
  apply (normaliseTrack_fallbacks record_without_artist "genre:highlife").
  reflexivity.
Defined.

(** C7 as stated fails where the medium entry is there with an empty text:
    the record has an entry of each size, and the image is the large one. *)
Lemma normaliseTrack_empty_medium_takes_large :
  List.find (has_size "medium") (image_entries record_with_empty_medium)
    = Some (VObj [("#text", VStr EmptyString); ("size", VStr "medium")]) /\
  List.find (has_size "large") (image_entries record_with_empty_medium)
    = Some (VObj [("#text", VStr "https://img/large.png"); ("size", VStr "large")]) /\
  exists t,
    normaliseTrack (VObj record_with_empty_medium) "genre:highlife" = Ok t /\
    image t = VStr "https://img/large.png" /\
    image t <> entry_text "medium" record_with_empty_medium.
Proof.
  split; [reflexivity|]. split; [reflexivity|].
  eexists. split; [reflexivity|]. split; [reflexivity|]. discriminate.
Qed.

(** ** The sort moves items and nothing else *)

Lemma insert_Permutation {A : Type} (l : list A) (j : nat) (x y : A) :
  l !! j = Some y -> y :: <[j:=x]> l ≡ₚ x :: l.
Proof.
  revert j. induction l as [|a l IH]; intros [|j]; simpl; try discriminate.
  - intros [= ->]. apply Permutation_swap.
  - intros L. rewrite (Permutation_swap a y). rewrite (IH _ L). apply Permutation_swap.
Qed.

Lemma swap_Permutation {A : Type} (i j : nat) (l : list A) : swap i j l ≡ₚ l.
Proof.
  unfold swap. revert i j.
  induction l as [|a l IH]; intros i j; [by destruct i, j|].
  destruct i as [|i], j as [|j]; simpl.
  - reflexivity.
  - destruct (l !! j) as [y|] eqn:L; [|reflexivity]. by apply insert_Permutation.
  - destruct (l !! i) as [x|] eqn:L; [|reflexivity]. by apply insert_Permutation.
  - specialize (IH i j). destruct (l !! i), (l !! j); try reflexivity.
    by constructor.
Qed.

Lemma run_sort_Permutation {A : Type} (sign : nat -> comparison) (p : sort_prog)
    (arr : list A) (calls : nat) :
  run_sort sign p arr calls ≡ₚ arr.
Proof.
  revert arr calls. induction p as [|i j next IH|neg IHn zero IHz pos IHp];
    intros arr calls; simpl.
  - reflexivity.
  - rewrite IH. apply swap_Permutation.
  - destruct (sign calls); auto.
Qed.

(** ** The aggregator *)

Section Aggregator.

Context (E : Engine) (W : World).

Implicit Types (tags : value) (ts : TagSet) (g : group) (item : value).
Implicit Types (tracks allTracks unique playlist : list Track) (made : list call).

Lemma shuffle_Permutation unique : shuffle E W unique ≡ₚ unique.
Proof. apply run_sort_Permutation. Qed.

Lemma shuffle_nil : shuffle E W [] = [].
Proof. apply Permutation_nil_r, shuffle_Permutation. Qed.

(** *** The builder, step by step *)

Lemma buildPlaylist_steps tags :
  buildPlaylist E W tags =
  match gather W tags with
  | (Ok allTracks, made) =>
      (match clean allTracks with
       | Ok unique => Ok (take 25 (shuffle E W unique))
       | Throw e => Throw e
       end, made)
  | (Throw e, made) => (Throw e, made)
  end.
Proof.
  unfold buildPlaylist, io_bind, lift, ret.
  destruct (gather W tags) as [[allTracks|e] made]; [|reflexivity].
  destruct (clean allTracks); simpl; by rewrite ?app_nil_r.
Qed.

Lemma playlist_from_clean tags playlist made :
  buildPlaylist E W tags = (Ok playlist, made) ->
  exists allTracks unique,
    gather W tags = (Ok allTracks, made) /\
    clean allTracks = Ok unique /\
    playlist = take 25 (shuffle E W unique).
Proof.
  rewrite buildPlaylist_steps.
  destruct (gather W tags) as [[allTracks|e] made']; [|discriminate].
  destruct (clean allTracks) as [unique|e] eqn:C; [|discriminate].
  intros [= <- <-]. eauto.
Qed.

Lemma playlist_NoDup_keys tags playlist made :
  buildPlaylist E W tags = (Ok playlist, made) -> NoDup (track_key <$> playlist).
Proof.
  intros B. apply playlist_from_clean in B as (allTracks & unique & _ & C & ->).
  apply clean_from_NoDup in C.
  eapply sublist_NoDup; [|apply fmap_sublist, sublist_take].
  by rewrite shuffle_Permutation.
Qed.

(** C1. For every list of tracks, no two tracks that [clean] keeps have the
    same lower-cased (artist, name) pair, and for each key, the lower-cased
    text of the artist, three bars and the name, the track kept is the
    first of the list with that key: a kept track has neither the key nor
    the pair of a track before it, a track with a key that no track before
    it has is kept, in its place, and every track of the list has the key
    of a kept track. The first track of the list with a pair is kept unless
    a kept track before it has another pair and the same key. [clean]
    throws only where a key cannot be built. Hence no two tracks of a
    playlist that [buildPlaylist] returns have the same lower-cased
    (artist, name) pair. *)
Theorem clean_keeps_first_of_each_key tags tracks :
  match clean tracks with
  | Ok out =>
      out `sublist_of` tracks /\
      NoDup (track_pair <$> out) /\
      (forall t, t ∈ out ->
         exists before after,
           tracks = before ++ t :: after /\
           forall u, u ∈ before ->
             track_key u <> track_key t /\ track_pair u <> track_pair t) /\
      (forall before u after,
         tracks = before ++ u :: after ->
         (forall v, v ∈ before -> track_key v <> track_key u) ->
         exists kept more, clean before = Ok kept /\ out = kept ++ u :: more) /\
      (forall u, u ∈ tracks -> exists t, t ∈ out /\ track_key t = track_key u) /\
      (forall before u after,
         tracks = before ++ u :: after ->
         (forall v, v ∈ before -> track_pair v <> track_pair u) ->
         (exists kept more, clean before = Ok kept /\ out = kept ++ u :: more) \/
         (exists t, t ∈ before /\ t ∈ out /\
                    track_key t = track_key u /\ track_pair t <> track_pair u))
  | Throw e => exists t, t ∈ tracks /\ track_key t = Throw e
  end /\
  match buildPlaylist E W tags with
  | (Ok playlist, _) => NoDup (track_pair <$> playlist)
  | (Throw _, _) => True
  end.
Proof.
  split.
  - unfold clean. destruct (clean_from ∅ tracks) as [out|e] eqn:C.
    + assert (Kept : forall before u after,
                 tracks = before ++ u :: after ->
                 (forall v, v ∈ before -> track_key v <> track_key u) ->
                 exists kept more,
                   clean_from ∅ before = Ok kept /\ out = kept ++ u :: more).
      { intros before u after -> First.
        destruct (clean_from_keys _ _ _ u C) as [key K].
        { apply elem_of_app. right. by left. }
        eapply clean_from_keeps_fresh; [exact C | exact K | apply not_elem_of_empty |].
        intros v In. rewrite <- K. by apply First. }
      split; [by eapply clean_from_sublist|].
      split; [eapply NoDup_pairs_of_keys, clean_from_NoDup, C|].
      split; [|split; [exact Kept|split]].
      * intros t In.
        destruct (clean_from_first _ _ _ _ C In) as (before & after & -> & First).
        exists before, after. split; [done|].
        intros u Iu. split; [by apply First|].
        intros Same. by apply (First u Iu), same_pair_same_key.
      * intros u In. destruct (clean_from_keys _ _ _ _ C In) as [key K].
        destruct (clean_from_covers _ _ _ _ _ C In K) as [Seen|(t & It & Kt)].
        -- by apply not_elem_of_empty in Seen.
        -- exists t. split; [done | congruence].
      * intros before u after Split First.
        destruct (Forall_Exists_dec (fun v => track_key v <> track_key u)
                    (fun v => track_key v = track_key u)
                    (fun v => match track_key_eq_dec v u with
                              | left Same => right Same
                              | right Other => left Other
                              end) before) as [All|Some].
        -- left. apply (Kept before u after Split).
           intros v In. by eapply (proj1 (Forall_forall _ _) All).
        -- right. apply Exists_exists in Some as (v & In & Same).
           subst tracks.
           destruct (clean_from_prefix _ _ _ _ C) as (kept & more & P & ->).
           destruct (clean_from_keys _ _ _ v P In) as [key K].
           destruct (clean_from_covers _ _ _ _ _ P In K) as [Seen|(t & It & Kt)].
           { by apply not_elem_of_empty in Seen. }
           assert (t ∈ before) as Before.
           { eapply elem_of_sublist; [exact It|]. by eapply clean_from_sublist. }
           exists t. split; [done|]. split; [apply elem_of_app; by left|].
           split; [congruence | by apply First].
    + by apply clean_from_Throw in C.
  - destruct (buildPlaylist E W tags) as [[playlist|e] made] eqn:B; [|done].
    eapply NoDup_pairs_of_keys, playlist_NoDup_keys, B.
Qed.

(** *** The three batches of a Tag Set *)

Lemma batch_calls_strings g (l : list string) :
  batch_calls g (VStr <$> l) =
  (fun s => match g with Artist => artist_request s | _ => tag_request s end) <$> l.
Proof.
  unfold batch_calls. induction l as [|s l IH]; [reflexivity|].
  rewrite !fmap_cons. simpl. rewrite fmap_app, IH. by destruct g.
Qed.

Lemma batch_items_tagset ts :
  batch_items (tagset_value ts) "culturalTags" 8 = Ok (VStr <$> take 8 (culturalTags ts)) /\
  batch_items (tagset_value ts) "artists" 20 = Ok (VStr <$> take 20 (artists ts)) /\
  batch_items (tagset_value ts) "eraTags" 2 = Ok (VStr <$> take 2 (eraTags ts)).
Proof. unfold batch_items, tagset_value. simpl. by rewrite !fmap_take. Qed.

Lemma gather_tagset ts :
  gather W (tagset_value ts) =
  (Ok (batch_tracks W Genre (VStr <$> take 8 (culturalTags ts))
         ++ batch_tracks W Artist (VStr <$> take 20 (artists ts))
         ++ batch_tracks W Era (VStr <$> take 2 (eraTags ts))),
   (tag_request <$> take 8 (culturalTags ts))
     ++ (artist_request <$> take 20 (artists ts))
     ++ (tag_request <$> take 2 (eraTags ts))).
Proof.
  destruct (batch_items_tagset ts) as (Genres & Artists & Eras).
  unfold gather, io_bind, lift, ret, run_batch.
  rewrite Genres, Artists, Eras, !batch_calls_strings, !app_nil_r. reflexivity.
Qed.

Lemma buildPlaylist_requests ts :
  snd (buildPlaylist E W (tagset_value ts)) =
  (tag_request <$> take 8 (culturalTags ts))
    ++ (artist_request <$> take 20 (artists ts))
    ++ (tag_request <$> take 2 (eraTags ts)).
Proof. rewrite buildPlaylist_steps, gather_tagset. reflexivity. Qed.

(** C5, amended. For every Tag Set, the artist batch of [buildPlaylist]
    sends one request for each of the first 20 artists at most, each with
    limit 40, between the requests of the genre batch and those of the era
    batch; what an artist contributes is taken from the whole answer, with
    no cut at 8 or anywhere else. *)
Theorem artist_batch_requests_forty ts :
  batch_items (tagset_value ts) "artists" 20 = Ok (VStr <$> take 20 (artists ts)) /\
  (length (take 20 (artists ts)) <= 20)%nat /\
  batch_calls Artist (VStr <$> take 20 (artists ts))
    = (fun a => CallLastfm {| api_method := "artist.gettoptracks";
                              subject := a; limit := 40 |})
        <$> take 20 (artists ts) /\
  snd (buildPlaylist E W (tagset_value ts))
    = (tag_request <$> take 8 (culturalTags ts))
        ++ batch_calls Artist (VStr <$> take 20 (artists ts))
        ++ (tag_request <$> take 2 (eraTags ts)) /\
  forall (i : nat) (a : string),
    mapper_tracks W Artist i (VStr a) =
    match lastfm W (group_index Artist) i
            {| api_method := "artist.gettoptracks"; subject := a; limit := 40 |} with
    | Some data =>
        forEach_push (or_else (opt_get (opt_get data "toptracks") "track") (VArr []))
          ("artist:" +:+ a)
    | None => []
    end.
Proof.
  split; [apply batch_items_tagset|]. split; [rewrite length_take; lia|].
  split; [apply batch_calls_strings|].
  split; [by rewrite buildPlaylist_requests, batch_calls_strings|].
  intros i a. unfold mapper_tracks, lastfmArtistTopTracks, lookup_call. simpl.
  by destruct (lastfm W _ _ _).
Qed.

(** *** The size of the playlist *)

(** C2. For every Tag Set and whatever the lookups answer, the playlist
    that [buildPlaylist] returns has at most 25 tracks, and at most as many
    as there are unique lower-cased (artist, name) pairs among the tracks
    gathered; it returns one unless the key of a gathered track cannot be
    built. *)
Theorem playlist_size_bound ts :
  exists allTracks made,
    gather W (tagset_value ts) = (Ok allTracks, made) /\
    match fst (buildPlaylist E W (tagset_value ts)) with
    | Ok playlist =>
        (length playlist <= 25)%nat /\
        (length playlist <= size (unique_pairs allTracks))%nat
    | Throw e => exists t, t ∈ allTracks /\ track_key t = Throw e
    end.
Proof.
  rewrite buildPlaylist_steps, gather_tagset.
  eexists _, _. split; [reflexivity|]. simpl.
  match goal with |- context [clean ?l] => generalize l end. intros allTracks.
  destruct (clean allTracks) as [unique|e] eqn:C.
  - rewrite length_take. split; [lia|].
    pose proof (clean_length _ _ C).
    pose proof (Permutation_length (shuffle_Permutation unique)). lia.
  - by apply clean_from_Throw in C.
Qed.

(** *** Failed lookups *)

Lemma mapper_tracks_failed g (i : nat) item (c : lastfm_call) :
  mapper_call g item = Ok c -> lastfm W (group_index g) i c = None ->
  mapper_tracks W g i item = [].
Proof.
  unfold mapper_call, mapper_tracks, lastfmArtistTopTracks, lastfmTagTopTracks.
  intros Call Fail. destruct g; simpl in *; rewrite Call; simpl; by rewrite Fail.
Qed.

Lemma mapper_tracks_forgiving g (i : nat) item :
  mapper_tracks (forgiving W) g i item = mapper_tracks W g i item.
Proof.
  unfold mapper_tracks, lastfmArtistTopTracks, lastfmTagTopTracks, lookup_call.
  destruct (to_string item) as [s|e]; [|by destruct g].
  destruct g; simpl; by destruct (lastfm W _ _ _).
Qed.

Lemma batch_tracks_forgiving g (items : list value) :
  batch_tracks (forgiving W) g items = batch_tracks W g items.
Proof.
  unfold batch_tracks. simpl. f_equal. apply list_fmap_ext.
  intros _ i _. destruct (items !! i); [apply mapper_tracks_forgiving | reflexivity].
Qed.

Lemma gather_forgiving tags : gather (forgiving W) tags = gather W tags.
Proof.
  unfold gather, run_batch, io_bind, lift, ret.
  destruct (batch_items tags "culturalTags" 8); [|reflexivity].
  destruct (batch_items tags "artists" 20); rewrite ?batch_tracks_forgiving; [|reflexivity].
  destruct (batch_items tags "eraTags" 2); rewrite ?batch_tracks_forgiving; reflexivity.
Qed.

Lemma mapper_tracks_unreachable g (i : nat) item :
  mapper_tracks (unreachable W) g i item = [].
Proof.
  unfold mapper_tracks, lastfmArtistTopTracks, lastfmTagTopTracks, lookup_call.
  destruct (to_string item) as [s|e]; by destruct g.
Qed.

Lemma batch_tracks_unreachable g (items : list value) :
  batch_tracks (unreachable W) g items = [].
Proof.
  unfold batch_tracks.
  induction (completion_order _ _) as [|i order IH]; [reflexivity|].
  rewrite fmap_cons. simpl concat. rewrite IH.
  destruct (items !! i); [by rewrite mapper_tracks_unreachable | reflexivity].
Qed.

End Aggregator.

(** C3. For every Tag Set: a lookup that fails contributes no track; the
    result of [buildPlaylist] is the one it would have had if every failed
    lookup had been answered with no track, and [buildPlaylist] throws only
    where the key of a gathered track cannot be built; when every lookup
    fails, it returns the empty playlist, all requests made. *)
Theorem failed_lookups_are_isolated (E : Engine) (W : World) (ts : TagSet) :
  (forall g i item c,
      mapper_call g item = Ok c -> lastfm W (group_index g) i c = None ->
      mapper_tracks W g i item = []) /\
  buildPlaylist E W (tagset_value ts) = buildPlaylist E (forgiving W) (tagset_value ts) /\
  (forall e, fst (buildPlaylist E W (tagset_value ts)) = Throw e ->
     exists allTracks made t,
       gather W (tagset_value ts) = (Ok allTracks, made) /\
       t ∈ allTracks /\ track_key t = Throw e) /\
  buildPlaylist E (unreachable W) (tagset_value ts) =
    (Ok [],
     (tag_request <$> take 8 (culturalTags ts))
       ++ (artist_request <$> take 20 (artists ts))
       ++ (tag_request <$> take 2 (eraTags ts))).
Proof.
  split; [|split; [|split]].
  - intros g i item c. apply mapper_tracks_failed.
  - by rewrite !buildPlaylist_steps, gather_forgiving.
  - intros e. rewrite buildPlaylist_steps, gather_tagset. simpl.
    match goal with
    | |- context [clean ?l] => destruct (clean l) as [unique|e'] eqn:C
    end; [discriminate|].
    intros [= ->]. apply clean_from_Throw in C as (t & In & K).
    eexists _, _, t. split; [reflexivity|]. by split.
  - rewrite buildPlaylist_steps, gather_tagset, !batch_tracks_unreachable. simpl.
    unfold clean. simpl. by rewrite shuffle_nil.
Qed.

Lemma failed_lookups_are_isolated_witness :
  mapper_tracks sample_world Genre 1 (VStr "juju") = [] /\
  buildPlaylist sample_engine (unreachable sample_world) (tagset_value sample_tags) =
    (Ok [],
     [tag_request "highlife"; tag_request "juju"; artist_request "Fela Kuti";
      tag_request "1960s"; tag_request "1970s"]).
Proof.
  destruct (failed_lookups_are_isolated sample_engine sample_world sample_tags)
    as (Zero & _ & _ & Empty).
  split; [|exact Empty].
  apply (Zero Genre 1%nat (VStr "juju")
           {| api_method := "tag.gettoptracks"; subject := "juju"; limit := 40 |});
    reflexivity.
Defined.

(** C5 as stated fails: the request for an artist asks for 40 tracks, and
    the nine tracks of an answer are all taken. *)
Lemma artist_lookup_takes_more_than_eight :
  batch_items (tagset_value sample_tags) "artists" 20 = Ok [VStr "Fela Kuti"] /\
  mapper_call Artist (VStr "Fela Kuti")
    = Ok {| api_method := "artist.gettoptracks"; subject := "Fela Kuti"; limit := 40 |} /\
  length (mapper_tracks sample_world Artist 0 (VStr "Fela Kuti")) = 9%nat /\
  ~ (length (batch_tracks sample_world Artist [VStr "Fela Kuti"]) <= 8)%nat.
Proof.
  split; [reflexivity|]. split; [reflexivity|]. split; [reflexivity|].
  assert (length (batch_tracks sample_world Artist [VStr "Fela Kuti"]) = 9%nat) as ->
    by (vm_compute; reflexivity).
  lia.
Qed.

(** ** Validation of the request *)

Section Validation.

Context (E : Engine) (W : World).

Implicit Types (body : value) (props : list (string * value)).

Lemma nothing_given_fields body :
  nullish body = false ->
  nothing_given body =
  Ok (negb (truthy (opt_get body "birth_year"))
      && negb (truthy (opt_get body "hometown"))
      && negb (truthy (opt_get body "language"))).
Proof.
  intros Body. unfold nothing_given. rewrite !(get_not_nullish _ _ Body). simpl.
  destruct (truthy (opt_get body "birth_year")); [reflexivity|].
  by destruct (truthy (opt_get body "hometown")).
Qed.

Lemma handler_refuses body :
  nullish body = false ->
  truthy (opt_get body "birth_year") = false ->
  truthy (opt_get body "hometown") = false ->
  truthy (opt_get body "language") = false ->
  handler E W body = (refusal, []).
Proof.
  intros Body B H L. unfold handler, io_bind, lift, ret.
  by rewrite (nothing_given_fields _ Body), B, H, L.
Qed.

Lemma handler_goes_on body :
  nullish body = false ->
  negb (truthy (opt_get body "birth_year"))
    && negb (truthy (opt_get body "hometown"))
    && negb (truthy (opt_get body "language")) = false ->
  forall message, fst (handler E W body) <> Status400 message.
Proof.
  intros Body Given message. unfold handler, io_bind, lift, ret.
  rewrite (nothing_given_fields _ Body), Given.
  destruct (getTagsFromGemini E W body) as [[tags|e] made]; [|discriminate].
  destruct (buildPlaylist E W tags) as [[playlist|e] made']; discriminate.
Qed.

(** C4, amended. For every request body (an object, or any value but null
    and undefined), the handler answers 400 if and only if none of
    birth_year, hometown, language holds a truthy value, and then it is the
    validation message that is sent and no call is made to either
    service. *)
Theorem validation_error_iff_nothing_truthy body :
  nullish body = false ->
  ((exists message, fst (handler E W body) = Status400 message) <->
   truthy (opt_get body "birth_year") = false /\
   truthy (opt_get body "hometown") = false /\
   truthy (opt_get body "language") = false) /\
  ((exists message, fst (handler E W body) = Status400 message) ->
   handler E W body = (refusal, [])).
Proof.
  intros Body.
  destruct (negb (truthy (opt_get body "birth_year"))
            && negb (truthy (opt_get body "hometown"))
            && negb (truthy (opt_get body "language"))) eqn:Given.
  - apply andb_prop in Given as [Given L]. apply andb_prop in Given as [B H].
    apply negb_true_iff in B, H, L.
    pose proof (handler_refuses body Body B H L) as R.
    split; [|by intros _].
    split; [by intros _|]. intros _. rewrite R. by eexists.
  - pose proof (handler_goes_on body Body Given) as Not.
    split; [split|].
    + intros [message M]. by destruct (Not message).
    + intros (B & H & L). rewrite B, H, L in Given. discriminate.
    + intros [message M]. by destruct (Not message).
Qed.

(** C9. A body in which birth_year, hometown and language are all present
    with falsy values is answered like a body without them: with the
    validation error, and without a call to either service. *)
Theorem falsy_fields_count_as_absent props (b h l : value) :
  own "birth_year" props = Some b ->
  own "hometown" props = Some h ->
  own "language" props = Some l ->
  truthy b = false -> truthy h = false -> truthy l = false ->
  handler E W (VObj props) = (refusal, []) /\
  handler E W (VObj props) = handler E W (VObj []).
Proof.
  intros Pb Ph Pl B H L.
  rewrite (handler_refuses (VObj [])) by reflexivity.
  split; apply handler_refuses; simpl; by rewrite ?Pb, ?Ph, ?Pl.
Qed.

End Validation.

Lemma validation_error_iff_nothing_truthy_witness :
  nullish (VObj body_with_empty_fields) = false /\
  handler sample_engine sample_world (VObj body_with_empty_fields) = (refusal, []).
Proof.
  split; [reflexivity|].
  destruct (validation_error_iff_nothing_truthy sample_engine sample_world
              (VObj body_with_empty_fields) eq_refl) as [Iff Quiet].
  apply Quiet, Iff. repeat split.
Defined.

(** C4 as stated fails: birth_year is present in the body, with the value
    0, and the answer is the validation error. *)
Lemma present_birth_year_is_refused :
  own "birth_year" body_with_zero_birth_year = Some (VNum 0) /\
  handler sample_engine sample_world (VObj body_with_zero_birth_year) = (refusal, []).
Proof. split; reflexivity. Qed.

Lemma falsy_fields_count_as_absent_witness :
  handler sample_engine sample_world (VObj body_with_empty_fields) = (refusal, []) /\
  handler sample_engine sample_world (VObj body_with_empty_fields)
    = handler sample_engine sample_world (VObj []).
Proof.
  apply (falsy_fields_count_as_absent sample_engine sample_world body_with_empty_fields
           (VNum 0) (VStr EmptyString) (VStr EmptyString)); reflexivity.
Defined.

(** ** Tag inference *)

Lemma getTagsFromGemini_parses (E : Engine) (W : World) (input : value)
    (message : string) (chunks : list (option string)) :
  buildUserMessage input = Ok message ->
  gemini W message = Some chunks ->
  getTagsFromGemini E W input =
  (match JSON_parse E (strip_fences (collect chunks)) with
   | Some tags => Ok tags
   | None => Throw SyntaxError
   end, [CallGemini message]).
Proof.
  intros M G. unfold getTagsFromGemini, io_bind, lift. rewrite M, G.
  by destruct (JSON_parse E _).
Qed.

Lemma drop_letters_tag (tag rest : string) :
  forallb is_letter (list_ascii_of_string tag) = true ->
  drop_letters (tag +:+ LF +:+ rest) = LF +:+ rest.
Proof.
  induction tag as [|c tag IH]; simpl; [reflexivity|].
  intros [Hc Htag]%andb_prop. rewrite Hc. by apply IH.
Qed.

(** A fence that opens the text goes, with its language tag and line feed. *)
Lemma strip_opening_fence (tag rest : string) :
  forallb is_letter (list_ascii_of_string tag) = true ->
  strip_opening ("```" +:+ tag +:+ LF +:+ rest) = rest.
Proof.
  intros Letters.
  change ("```" +:+ tag +:+ LF +:+ rest)
    with (String "`" (String "`" (String "`" (tag +:+ LF +:+ rest)))).
  unfold strip_opening. by rewrite (drop_letters_tag _ _ Letters).
Qed.

(** A fence that ends the text goes. *)
Lemma strip_closing_fence (s : string) : strip_closing (s +:+ "```") = s.
Proof.
  induction s as [|c s IH]; [reflexivity|].
  change (String c s +:+ "```") with (String c (s +:+ "```")).
  cbn [strip_closing]. rewrite IH.
  destruct (String.eqb (String c (s +:+ "```")) "```") eqn:Same; [|reflexivity].
  apply String.eqb_eq in Same. apply (f_equal String.length) in Same.
  simpl in Same. rewrite string_length_app in Same. simpl in Same. lia.
Qed.

(** A fence that ends the text but for a line feed stays. *)
Lemma strip_closing_line_feed (s : string) :
  strip_closing (s +:+ LF) = s +:+ LF.
Proof.
  induction s as [|c s IH]; [reflexivity|].
  change (String c s +:+ LF) with (String c (s +:+ LF)).
  cbn [strip_closing]. rewrite IH.
  destruct (String.eqb (String c (s +:+ LF)) "```") eqn:Same; [|reflexivity].
  apply String.eqb_eq in Same. exfalso. clear IH.
  destruct s as [|c1 [|c2 [|c3 s]]]; simpl in Same; discriminate.
Qed.

Example strip_fences_exact_fence :
  strip_fences ("```json" +:+ LF +:+ "[1948]" +:+ LF +:+ "```") = "[1948]".
Proof. reflexivity. Qed.

(** C8 fails on the code where white space follows the closing fence: the
    chunks are concatenated, the opening fence goes, the closing one stays,
    and what [JSON.parse] is given is the payload with a fence after it,
    which no JSON parser takes. It is the same with white space before the
    opening fence, which then stays. *)
Theorem trailing_line_feed_keeps_closing_fence (E : Engine) :
  collect fenced_chunks = "```json" +:+ LF +:+ "{}" +:+ LF +:+ "```" +:+ LF /\
  strip_fences (collect fenced_chunks) = "{}" +:+ LF +:+ "```" /\
  fst (getTagsFromGemini E fenced_world (VObj body_with_hometown)) =
    match JSON_parse E ("{}" +:+ LF +:+ "```") with
    | Some tags => Ok tags
    | None => Throw SyntaxError
    end /\
  JSON_parse sample_engine "{}" = Some (VObj []) /\
  fst (getTagsFromGemini sample_engine fenced_world (VObj body_with_hometown)) =
    Throw SyntaxError /\
  strip_fences fenced_late = "```json" +:+ LF +:+ "{}".
Proof.
  split; [reflexivity|]. split; [reflexivity|]. split.
  - rewrite (getTagsFromGemini_parses E fenced_world (VObj body_with_hometown)
               _ fenced_chunks eq_refl eq_refl).
    reflexivity.
  - repeat split.
Qed.

(** ** The shuffle *)

(** [all_draws] lists the sequences of [h] numerators, and only them. *)
Lemma elem_of_all_draws (b h : nat) (draws : list Z) :
  draws ∈ all_draws b h <->
  length draws = h /\ Forall (fun k => 0 <= k < 2 ^ Z.of_nat (S b)) draws.
Proof.
  revert draws. induction h as [|h IH]; intros draws; cbn [all_draws].
  - rewrite list_elem_of_singleton. split.
    + intros ->. by split.
    + intros [Len _]. by destruct draws.
  - rewrite list_elem_of_bind. split.
    + intros (k & In & Range). apply list_elem_of_fmap in In as (rest & -> & In).
      apply IH in In as [Len All]. apply elem_of_seqZ in Range.
      split; [simpl; by rewrite Len|]. constructor; [lia | done].
    + intros [Len All]. destruct draws as [|k rest]; [discriminate|].
      apply Forall_cons in All as [Range All]. exists k. split.
      * apply list_elem_of_fmap. exists rest. split; [done|].
        apply IH. split; [by injection Len | done].
      * apply elem_of_seqZ. lia.
Qed.

Lemma length_all_draws (b h : nat) :
  length (all_draws b h) = (2 ^ (S b * h))%nat.
Proof.
  induction h as [|h IH].
  - by rewrite Nat.mul_0_r.
  - cbn [all_draws].
    assert (Each : forall ks : list Z,
               length (k ← ks; cons k <$> all_draws b h)
               = (length ks * length (all_draws b h))%nat).
    { induction ks as [|k ks IHks]; [reflexivity|].
      rewrite bind_cons, length_app, length_fmap, IHks. simpl. lia. }
    rewrite Each, length_seqZ, IH.
    replace (2 ^ Z.of_nat (S b)) with (Z.of_nat (2 ^ S b))
      by (rewrite Nat2Z.inj_pow; reflexivity).
    rewrite Nat2Z.id, <- Nat.pow_add_r. f_equal. lia.
Qed.

Lemma power_of_two_not_multiple_of_three (k c : nat) : (3 * c <> 2 ^ k)%nat.
Proof.
  assert (Rem : exists q, (2 ^ k = 3 * q + 1 \/ 2 ^ k = 3 * q + 2)%nat).
  { induction k as [|k [q [IH|IH]]].
    - exists 0%nat. by left.
    - exists (2 * q)%nat. right. rewrite Nat.pow_succ_r'. lia.
    - exists (2 * q + 1)%nat. left. rewrite Nat.pow_succ_r'. lia. }
  destruct Rem as [q [R|R]]; lia.
Qed.

Lemma fact_multiple_of_three (n : nat) :
  (3 <= n)%nat -> exists m, fact n = (3 * m)%nat.
Proof.
  induction 1 as [|n _ [m IH]].
  - by exists 2%nat.
  - exists (S n * m)%nat. cbn [fact]. rewrite IH. lia.
Qed.

(** With three tracks or more, no sort makes the orders equally likely:
    the outcomes of the random source are a power of two in number, which
    the [n!] orders cannot share evenly. *)
Lemma no_uniform_shuffle (E : Engine) (W : World) (unique : list Track) :
  (3 <= length unique)%nat -> ~ uniform_shuffle E W unique.
Proof.
  intros Three Uniform. specialize (Uniform unique (reflexivity _)).
  unfold shuffle_outcomes in Uniform at 2.
  rewrite length_fmap, length_all_draws in Uniform.
  destruct (fact_multiple_of_three _ Three) as [m M]. rewrite M in Uniform.
  eapply power_of_two_not_multiple_of_three. rewrite <- Uniform. apply Nat.mul_assoc.
Qed.

(** C6, amended. The last step of [buildPlaylist] sorts the deduplicated
    collection with a comparator that answers at random and keeps the
    first 25 entries: whatever the random source gives, the sorted sequence
    is a permutation of the collection. *)
Theorem final_step_permutes_then_truncates (E : Engine) (W : World) (tags : value)
    (allTracks unique : list Track) (made : list call) :
  gather W tags = (Ok allTracks, made) ->
  clean allTracks = Ok unique ->
  shuffle E W unique ≡ₚ unique /\
  (forall draws, shuffle E (with_draws W draws) unique ≡ₚ unique) /\
  buildPlaylist E W tags = (Ok (take 25 (shuffle E W unique)), made).
Proof.
  intros G C. split; [apply shuffle_Permutation|].
  split; [intros draws; apply shuffle_Permutation|].
  by rewrite buildPlaylist_steps, G, C.
Qed.

Lemma final_step_permutes_then_truncates_witness :
  shuffle sample_engine sample_world sample_unique ≡ₚ sample_unique /\
  (forall draws, shuffle sample_engine (with_draws sample_world draws) sample_unique
                   ≡ₚ sample_unique) /\
  buildPlaylist sample_engine sample_world (tagset_value sample_tags)
    = (Ok (take 25 (shuffle sample_engine sample_world sample_unique)), sample_requests).
Proof.
  apply (final_step_permutes_then_truncates sample_engine sample_world
           (tagset_value sample_tags) sample_gathered sample_unique sample_requests);
    vm_compute; reflexivity.
Defined.

(** C6 as stated fails: for a deduplicated collection of three tracks, no
    engine and no world make the permutation a uniform one. *)
Lemma shuffle_of_three_is_not_uniform :
  clean three_tracks = Ok three_tracks /\
  ~ exists (E : Engine) (W : World), uniform_shuffle E W three_tracks.
Proof.
  split; [vm_compute; reflexivity|].
  intros (E & W & Uniform). apply (no_uniform_shuffle E W three_tracks); [|done].
  reflexivity.
Qed.

(** Insertion sort with a two-bit random source: of the 64 outcomes, 36
    leave the three tracks as they were and one reverses them. *)
Example two_bit_insertion_sort_is_skewed :
  length (shuffle_outcomes two_bit_engine sample_world three_tracks) = 64%nat /\
  length (filter (fun o => o = three_tracks)
            (shuffle_outcomes two_bit_engine sample_world three_tracks)) = 36%nat /\
  length (filter (fun o => o = reverse three_tracks)
            (shuffle_outcomes two_bit_engine sample_world three_tracks)) = 1%nat.
Proof. repeat split; vm_compute; reflexivity. Qed.

(** * Further properties *)

(** ** Outcomes, read backwards *)

Lemma bind_Ok {A B : Type} (m : outcome A) (k : A -> outcome B) (b : B) :
  bind m k = Ok b -> exists a, m = Ok a /\ k a = Ok b.
Proof. destruct m as [a|e]; simpl; [eauto | discriminate]. Qed.

Lemma bind_Throw {A B : Type} (m : outcome A) (k : A -> outcome B) (e : error) :
  bind m k = Throw e -> m = Throw e \/ exists a, m = Ok a /\ k a = Throw e.
Proof. destruct m as [a|e']; simpl; [eauto | intros [= ->]; auto]. Qed.

(** ** ToString *)

(** ToString throws nothing but a TypeError. *)
Lemma to_string_TypeError : forall (v : value) (e : error),
  to_string v = Throw e -> e = TypeError.
Proof.
  fix IH 1. intros [| |[|]| | |items|props] e; simpl; try discriminate.
  - induction items as [|x rest IHrest]; [discriminate|].
    destruct (nullish x) eqn:N; simpl.
    + destruct rest as [|y rest']; [discriminate|].
      intros T. apply bind_Throw in T as [T|(r & _ & T)]; [by apply IHrest | discriminate].
    + destruct (to_string x) as [s|e'] eqn:X; simpl.
      * destruct rest as [|y rest']; [discriminate|].
        intros T. apply bind_Throw in T as [T|(r & _ & T)]; [by apply IHrest | discriminate].
      * intros [= <-]. by apply (IH x).
  - destruct (own "toString" props); [by intros [= <-] | discriminate].
Qed.

Lemma to_string_primitive (v : value) :
  primitive v = true -> exists s, to_string v = Ok s.
Proof. destruct v as [| |[|]| | | |]; simpl; try discriminate; eauto. Qed.

Lemma track_key_TypeError (t : Track) (e : error) :
  track_key t = Throw e -> e = TypeError.
Proof.
  unfold track_key. intros K.
  apply bind_Throw in K as [K|(a & _ & K)]; [by apply to_string_TypeError in K|].
  apply bind_Throw in K as [K|(n & _ & K)]; [by apply to_string_TypeError in K|].
  discriminate.
Qed.

(** ** Deduplication, further *)

Lemma clean_from_unchanged (seen : gset string) (tracks : list Track) :
  (forall t, t ∈ tracks -> exists key, track_key t = Ok key /\ key ∉ seen) ->
  NoDup (track_key <$> tracks) ->
  clean_from seen tracks = Ok tracks.
Proof.
  revert seen. induction tracks as [|t rest IH]; intros seen Fresh ND; [reflexivity|].
  rewrite fmap_cons in ND. apply NoDup_cons in ND as [First ND].
  destruct (Fresh t) as (key & K & New); [by left|].
  simpl. rewrite K. simpl. rewrite decide_False by done.
  rewrite IH; [reflexivity | | done].
  intros u In. destruct (Fresh u) as (k & Ku & Nu); [by right|].
  exists k. split; [done|].
  intros Was. apply elem_of_union in Was as [Was|Was]; [|done].
  apply elem_of_singleton in Was as ->. apply First.
  apply list_elem_of_fmap. exists u. split; [congruence | done].
Qed.

Lemma clean_unchanged (tracks : list Track) :
  (forall t, t ∈ tracks -> exists key, track_key t = Ok key) ->
  NoDup (track_key <$> tracks) ->
  clean tracks = Ok tracks.
Proof.
  intros Keys ND. apply clean_from_unchanged; [|done].
  intros t In. destruct (Keys t In) as [key K]. exists key. split; [done|].
  apply not_elem_of_empty.
Qed.

(** X1. [clean] leaves a list as it is exactly when the key of each of its
    tracks can be built and no two of them have the same key. *)
Theorem clean_unchanged_iff (tracks : list Track) :
  clean tracks = Ok tracks <->
  (forall t, t ∈ tracks -> exists key, track_key t = Ok key) /\
  NoDup (track_key <$> tracks).
Proof.
  split.
  - unfold clean. intros C. split.
    + intros t In. by eapply clean_from_keys.
    + by eapply clean_from_NoDup.
  - intros [Keys ND]. by apply clean_unchanged.
Qed.

(** X2. [clean] is idempotent: what it returns, it returns unchanged. *)
Theorem clean_idempotent (tracks out : list Track) :
  clean tracks = Ok out -> clean out = Ok out.
Proof.
  intros C. unfold clean in C. apply clean_unchanged.
  - intros t In. eapply clean_from_keys; [exact C|].
    eapply elem_of_sublist; [exact In | by eapply clean_from_sublist].
  - by eapply clean_from_NoDup.
Qed.

Lemma clean_idempotent_witness :
  clean [colliding_first; colliding_second; colliding_first] = Ok [colliding_first] /\
  clean [colliding_first] = Ok [colliding_first].
Proof.
  assert (C : clean [colliding_first; colliding_second; colliding_first]
              = Ok [colliding_first]) by (vm_compute; reflexivity).
  split; [exact C|]. exact (clean_idempotent _ _ C).
Defined.

Lemma clean_from_app (seen : gset string) (first later kept out : list Track) :
  clean_from seen first = Ok kept ->
  clean_from seen (first ++ later) = Ok out ->
  exists more, out = kept ++ more /\ more `sublist_of` later.
Proof.
  revert seen kept out. induction first as [|t rest IH]; intros seen kept out.
  - intros [= <-] C. exists out. split; [done | by eapply clean_from_sublist].
  - rewrite <- app_comm_cons. intros C1 C2.
    apply clean_from_cons_Ok in C1 as (k1 & K1 & [[S1 C1]|(S1 & kept1 & C1 & ->)]);
    apply clean_from_cons_Ok in C2 as (k2 & K2 & [[S2 C2]|(S2 & kept2 & C2 & ->)]);
    assert (k2 = k1) as -> by congruence; try done.
    + by eapply IH.
    + destruct (IH _ _ _ C1 C2) as (more & -> & Sub). by exists more.
Qed.

(** X3. Tracks that come earlier win: the tracks [clean] keeps of a list
    are still kept, in the same places, when more tracks are appended, and
    the rest of the result is taken from the appended tracks. *)
Theorem clean_keeps_earlier_tracks (first later kept out : list Track) :
  clean first = Ok kept ->
  clean (first ++ later) = Ok out ->
  exists more, out = kept ++ more /\ more `sublist_of` later.
Proof. apply clean_from_app. Qed.

Lemma clean_keeps_earlier_tracks_witness :
  exists more,
    [colliding_first] = [colliding_first] ++ more /\
    more `sublist_of` [colliding_second; colliding_first].
Proof.
  apply (clean_keeps_earlier_tracks [colliding_first]
           [colliding_second; colliding_first] [colliding_first] [colliding_first]);
    vm_compute; reflexivity.
Defined.

(** ** Normalisation, further *)

Lemma get_TypeError (v : value) (k : string) (e : error) :
  get v k = Throw e -> e = TypeError.
Proof. unfold get. destruct (nullish v); [by intros [= <-] | discriminate]. Qed.

Lemma find_size_TypeError (items : list value) (sz : string) (e : error) :
  find_size items sz = Throw e -> e = TypeError.
Proof.
  induction items as [|i rest IH]; simpl; [discriminate|].
  intros F. apply bind_Throw in F as [F|(s & _ & F)]; [by apply get_TypeError in F|].
  destruct (is_string s sz); [discriminate | by apply IH].
Qed.

Lemma image_text_TypeError (img : value) (sz : string) (e : error) :
  image_text img sz = Throw e -> e = TypeError.
Proof.
  destruct img as [| |b|n|s|items|props]; simpl;
    try discriminate; try (by intros [= <-]).
  intros F. apply bind_Throw in F as [F|(found & _ & F)]; [|discriminate].
  by apply find_size_TypeError in F.
Qed.

(** What [find] returns is undefined or an entry of the size asked for. *)
Lemma image_text_Ok (img : value) (sz : string) (text : value) :
  image_text img sz = Ok text ->
  text = VUndefined \/
  exists entry, has_size sz entry = true /\ text = opt_get entry "#text".
Proof.
  destruct img as [| |b|n|s|items|props]; simpl; try discriminate;
    try (intros [= <-]; by left).
  intros F. apply bind_Ok in F as (found & F & [= <-]).
  induction items as [|i rest IH]; simpl in F.
  - injection F as <-. by left.
  - apply bind_Ok in F as (s & G & F).
    destruct (is_string s sz) eqn:S; [|by apply IH].
    injection F as <-. right. exists i. split; [|done].
    unfold has_size. unfold get in G. destruct (nullish i); [discriminate|].
    by injection G as ->.
Qed.

Lemma or_else_fallback (a b : value) :
  truthy b = true -> truthy (or_else a b) = true.
Proof. unfold or_else. by destruct (truthy a) eqn:T. Qed.

Lemma or_else_null (a : value) :
  or_else a VNull = VNull \/ truthy (or_else a VNull) = true.
Proof. unfold or_else. destruct (truthy a) eqn:T; [by right | by left]. Qed.

(** The fields of the track a record is normalised to. *)
Lemma normaliseTrack_Ok (track : value) (src : string) (t : Track) :
  normaliseTrack track src = Ok t ->
  nullish track = false /\
  name t = opt_get track "name" /\
  artist t = or_else (or_else (opt_get (opt_get track "artist") "name")
                        (opt_get track "artist")) (VStr "Unknown") /\
  url t = or_else (opt_get track "url") VNull /\
  (image t = VNull \/ truthy (image t) = true) /\
  source t = src.
Proof.
  unfold normaliseTrack, get. destruct (nullish track); [discriminate|].
  cbn [bind]. intros N. split; [reflexivity|].
  apply bind_Ok in N as (medium & _ & N).
  apply bind_Ok in N as (picture & P & [= <-]). simpl.
  repeat split.
  destruct (truthy medium) eqn:M.
  - injection P as <-. by right.
  - apply bind_Ok in P as (large & _ & [= <-]). apply or_else_null.
Qed.

(** X4. Whatever the raw record, a track that [normaliseTrack] returns has
    a truthy artist (at worst "Unknown"), a url and an image that are null
    or truthy (never undefined, never the empty text), the name of the
    record and the source it was given. *)
Theorem normalised_track_is_filled (track : value) (src : string) (t : Track) :
  normaliseTrack track src = Ok t ->
  truthy (artist t) = true /\
  (url t = VNull \/ truthy (url t) = true) /\
  (image t = VNull \/ truthy (image t) = true) /\
  name t = opt_get track "name" /\
  source t = src.
Proof.
  intros N. apply normaliseTrack_Ok in N as (_ & Name & Artist & Url & Image & Source).
  rewrite Artist, Url.
  split; [by apply or_else_fallback|]. split; [apply or_else_null|]. done.
Qed.

Lemma normalised_track_is_filled_witness :
  exists t,
    normaliseTrack (VObj record_with_empty_medium) "genre:highlife" = Ok t /\
    truthy (artist t) = true /\
    (url t = VNull \/ truthy (url t) = true) /\
    (image t = VNull \/ truthy (image t) = true) /\
    name t = opt_get (VObj record_with_empty_medium) "name" /\
    source t = "genre:highlife".
Proof.
  eexists. split; [reflexivity|].
  apply (normalised_track_is_filled (VObj record_with_empty_medium) "genre:highlife").
  reflexivity.
Defined.

(** X5. [normaliseTrack] throws nothing but a TypeError, and only on a
    record that is null or undefined, or an object whose image field is
    neither missing, null nor a list free of null items. *)
Theorem normaliseTrack_throws_on_malformed (track : value) (src : string) (e : error) :
  normaliseTrack track src = Throw e ->
  e = TypeError /\
  (nullish track = true \/
   exists props, track = VObj props /\ image_list_ok props = false).
Proof.
  intros N. split.
  - unfold normaliseTrack in N.
    repeat (apply bind_Throw in N as [N|(? & _ & N)]; [by apply get_TypeError in N|]).
    apply bind_Throw in N as [N|(medium & _ & N)]; [by apply image_text_TypeError in N|].
    apply bind_Throw in N as [N|(? & _ & N)]; [|discriminate].
    destruct (truthy medium); [discriminate|].
    apply bind_Throw in N as [N|(? & _ & N)]; [|discriminate].
    by apply image_text_TypeError in N.
  - destruct track as [| |b|n|s|items|props]; try (by left); try discriminate.
    right. exists props. split; [reflexivity|].
    destruct (image_list_ok props) eqn:I; [|reflexivity].
    rewrite (normaliseTrack_object _ _ I) in N. discriminate.
Qed.

Lemma normaliseTrack_throws_on_malformed_witness :
  normaliseTrack (VObj record_with_image_text) "genre:highlife" = Throw TypeError /\
  (nullish (VObj record_with_image_text) = true \/
   exists props,
     VObj record_with_image_text = VObj props /\ image_list_ok props = false).
Proof.
  split; [reflexivity|].
  apply (normaliseTrack_throws_on_malformed (VObj record_with_image_text)
           "genre:highlife" TypeError).
  reflexivity.
Defined.

(** ** Provenance *)

Lemma push_normalised_source (items : list value) (src : string) (t : Track) :
  t ∈ push_normalised items src -> source t = src.
Proof.
  induction items as [|i rest IH]; simpl; [by intros ?%elem_of_nil|].
  destruct (normaliseTrack i src) as [tr|e] eqn:N; [|by intros ?%elem_of_nil].
  intros [->|In]%elem_of_cons; [|by apply IH].
  by apply normaliseTrack_Ok in N as (_ & _ & _ & _ & _ & Source).
Qed.

Lemma mapper_tracks_source (W : World) (g : group) (i : nat) (item : value) (t : Track) :
  t ∈ mapper_tracks W g i item ->
  exists s, to_string item = Ok s /\ source t = group_prefix g +:+ s.
Proof.
  unfold mapper_tracks, forEach_push.
  destruct (match g with
            | Artist => lastfmArtistTopTracks _ item (Some 40)
            | _ => lastfmTagTopTracks _ item (Some 40)
            end) as [tracks|e]; [|by intros ?%elem_of_nil].
  destruct (to_string item) as [s|e]; [|by intros ?%elem_of_nil].
  destruct tracks; try (by intros ?%elem_of_nil).
  intros In. exists s. split; [done | by eapply push_normalised_source].
Qed.

Lemma elem_of_concat {A : Type} (x : A) (blocks : list (list A)) :
  x ∈ concat blocks <-> exists block, x ∈ block /\ block ∈ blocks.
Proof.
  induction blocks as [|b blocks IH]; simpl.
  - split; [by intros ?%elem_of_nil | by intros (? & _ & ?%elem_of_nil)].
  - rewrite elem_of_app, IH. split.
    + intros [In|(block & In & Block)]; [exists b | exists block];
        (split; [done|]); [by left | by right].
    + intros (block & In & [->|Block]%elem_of_cons); [by left | right; eauto].
Qed.

Lemma batch_tracks_source (W : World) (g : group) (items : list value) (t : Track) :
  t ∈ batch_tracks W g items ->
  exists item s,
    item ∈ items /\ to_string item = Ok s /\ source t = group_prefix g +:+ s.
Proof.
  unfold batch_tracks. intros In.
  apply elem_of_concat in In as (block & In & Block).
  apply list_elem_of_fmap in Block as (i & -> & _).
  destruct (items !! i) as [item|] eqn:L; [|by apply elem_of_nil in In].
  apply mapper_tracks_source in In as (s & S & Src).
  exists item, s. split; [by eapply list_elem_of_lookup_2|]. done.
Qed.

(** X6. Every track gathered for a Tag Set says where it comes from: its
    source is [genre:] and one of the first 8 cultural tags, [artist:] and
    one of the first 20 artists, or [era:] and one of the first 2 era
    tags. *)
Theorem gathered_tracks_have_provenance (W : World) (ts : TagSet)
    (allTracks : list Track) (made : list call) (t : Track) :
  gather W (tagset_value ts) = (Ok allTracks, made) ->
  t ∈ allTracks ->
  (exists tag, tag ∈ take 8 (culturalTags ts) /\ source t = "genre:" +:+ tag) \/
  (exists a, a ∈ take 20 (artists ts) /\ source t = "artist:" +:+ a) \/
  (exists decade, decade ∈ take 2 (eraTags ts) /\ source t = "era:" +:+ decade).
Proof.
  rewrite gather_tagset. intros [= <- _] In.
  assert (From : forall g l,
             t ∈ batch_tracks W g (VStr <$> l) ->
             exists s, s ∈ l /\ source t = group_prefix g +:+ s).
  { intros g l Ing. apply batch_tracks_source in Ing as (item & s & Ii & S & Src).
    apply list_elem_of_fmap in Ii as (s' & -> & Is). injection S as <-. eauto. }
  apply elem_of_app in In as [In|In]; [left; by apply (From Genre)|].
  apply elem_of_app in In as [In|In]; right; [left; by apply (From Artist)|].
  right. by apply (From Era).
Qed.

Lemma gathered_tracks_have_provenance_witness :
  (exists tag, tag ∈ take 8 (culturalTags sample_tags) /\
     source (mkTrack (VStr "A") (VStr "fela kuti") (VStr "https://www.last.fm/music/x")
               VNull "genre:highlife") = "genre:" +:+ tag) \/
  (exists a, a ∈ take 20 (artists sample_tags) /\
     source (mkTrack (VStr "A") (VStr "fela kuti") (VStr "https://www.last.fm/music/x")
               VNull "genre:highlife") = "artist:" +:+ a) \/
  (exists decade, decade ∈ take 2 (eraTags sample_tags) /\
     source (mkTrack (VStr "A") (VStr "fela kuti") (VStr "https://www.last.fm/music/x")
               VNull "genre:highlife") = "era:" +:+ decade).
Proof.
  apply (gathered_tracks_have_provenance sample_world sample_tags
           sample_gathered sample_requests).
  - vm_compute. reflexivity.
  - apply list_elem_of_In. vm_compute. tauto.
Defined.

(** ** The batches, further *)

Lemma insert_by_Permutation (time : nat -> nat) (i : nat) (l : list nat) :
  insert_by time i l ≡ₚ i :: l.
Proof.
  induction l as [|j rest IH]; simpl; [reflexivity|].
  destruct (time i <=? time j)%nat; [reflexivity|].
  rewrite IH. apply Permutation_swap.
Qed.

Lemma completion_order_Permutation (time : nat -> nat) (n : nat) :
  completion_order time n ≡ₚ seq 0 n.
Proof.
  unfold completion_order. induction (seq 0 n) as [|i l IH]; simpl; [reflexivity|].
  by rewrite insert_by_Permutation, IH.
Qed.

Lemma concat_Permutation {A : Type} (blocks blocks' : list (list A)) :
  blocks ≡ₚ blocks' -> concat blocks ≡ₚ concat blocks'.
Proof.
  induction 1 as [|b l l' _ IH|a b l|l l' l'' _ IH1 _ IH2]; simpl.
  - reflexivity.
  - by rewrite IH.
  - rewrite !app_assoc. f_equiv. apply Permutation_app_comm.
  - by rewrite IH1.
Qed.

(** X7. Whatever the order in which the lookups of a batch complete,
    [allTracks] receives what each mapper pushes once: the tracks of a
    batch are, up to their order, those of its mappers taken in the order
    of the array. *)
Theorem batch_tracks_any_completion_order (W : World) (g : group) (items : list value) :
  batch_tracks W g items ≡ₚ concat (imap (mapper_tracks W g) items).
Proof.
  unfold batch_tracks.
  rewrite (concat_Permutation _ _
             (fmap_Permutation _ _ _ (completion_order_Permutation _ (length items)))).
  rewrite <- imap_seq_0.
  erewrite imap_ext; [reflexivity|].
  intros i item Item. simpl. by rewrite Item.
Qed.

(** ** The requests of [buildPlaylist] *)

Lemma batch_items_length (tags : value) (field : string) (n : nat) (items : list value) :
  batch_items tags field n = Ok items -> (length items <= n)%nat.
Proof.
  unfold batch_items. intros B. apply bind_Ok in B as (f & _ & B).
  destruct (or_else f (VArr [])); try discriminate.
  injection B as <-. rewrite length_take. lia.
Qed.

Lemma batch_items_TypeError (tags : value) (field : string) (n : nat) (e : error) :
  batch_items tags field n = Throw e -> e = TypeError.
Proof.
  unfold batch_items. intros B.
  apply bind_Throw in B as [B|(f & _ & B)]; [by apply get_TypeError in B|].
  destruct (or_else f (VArr [])); try discriminate; by injection B as <-.
Qed.

Lemma batch_calls_bound (g : group) (items : list value) :
  (length (batch_calls g items) <= length items)%nat /\
  Forall batch_request (batch_calls g items).
Proof.
  unfold batch_calls. rewrite length_fmap, Forall_fmap.
  induction items as [|item rest [Len All]]; [split; [done | constructor]|].
  rewrite fmap_cons. cbn [concat]. rewrite length_app.
  assert (One : (length (outcome_list (mapper_call g item)) <= 1)%nat /\
                Forall (batch_request ∘ CallLastfm) (outcome_list (mapper_call g item))).
  { unfold mapper_call, lookup_call.
    destruct g, (to_string item) as [s|e]; cbn; (split; [lia|]);
      try apply Forall_nil_2; apply Forall_singleton; eexists _, _;
      (split; [reflexivity|]); auto. }
  destruct One as [Len1 All1]. split; [cbn [length]; lia|]. by apply Forall_app.
Qed.

Lemma gather_requests (W : World) (tags : value) :
  (length (snd (gather W tags)) <= 30)%nat /\
  Forall batch_request (snd (gather W tags)).
Proof.
  unfold gather, io_bind, lift, ret, run_batch.
  destruct (batch_items tags "culturalTags" 8) as [genres|e] eqn:G; simpl;
    [|split; [lia | constructor]].
  apply batch_items_length in G.
  destruct (batch_calls_bound Genre genres) as [Lg Fg].
  destruct (batch_items tags "artists" 20) as [artists|e] eqn:A; simpl;
    [|rewrite app_nil_r; split; [lia | done]].
  apply batch_items_length in A.
  destruct (batch_calls_bound Artist artists) as [La Fa].
  destruct (batch_items tags "eraTags" 2) as [eras|e] eqn:R; simpl.
  - apply batch_items_length in R.
    destruct (batch_calls_bound Era eras) as [Le Fe].
    rewrite !app_nil_r, !length_app. split; [lia|].
    apply Forall_app. split; [done|]. by apply Forall_app.
  - rewrite !app_nil_r, !length_app. split; [lia|]. by apply Forall_app.
Qed.

Lemma buildPlaylist_gather_requests (E : Engine) (W : World) (tags : value) :
  snd (buildPlaylist E W tags) = snd (gather W tags).
Proof.
  rewrite buildPlaylist_steps. by destruct (gather W tags) as [[allTracks|e] made].
Qed.

(** X8. Whatever the tags are, [buildPlaylist] sends at most 30 requests to
    the music-metadata service, each of them a top-tracks request by tag
    or by artist with limit 40. *)
Theorem buildPlaylist_sends_at_most_thirty (E : Engine) (W : World) (tags : value) :
  (length (snd (buildPlaylist E W tags)) <= 30)%nat /\
  Forall batch_request (snd (buildPlaylist E W tags)).
Proof. rewrite buildPlaylist_gather_requests. apply gather_requests. Qed.

(** X9. When the tracks are gathered and deduplicated, the playlist has as
    many tracks as the deduplicated collection, up to 25; all of them
    were gathered; and with 25 unique tracks or fewer none is dropped. *)
Theorem playlist_takes_all_it_can (E : Engine) (W : World) (tags : value)
    (allTracks unique : list Track) (made : list call) :
  gather W tags = (Ok allTracks, made) ->
  clean allTracks = Ok unique ->
  exists playlist,
    buildPlaylist E W tags = (Ok playlist, made) /\
    length playlist = Nat.min 25 (length unique) /\
    (forall t, t ∈ playlist -> t ∈ allTracks) /\
    ((length unique <= 25)%nat -> playlist ≡ₚ unique).
Proof.
  intros G C. exists (take 25 (shuffle E W unique)).
  pose proof (shuffle_Permutation E W unique) as Perm.
  split; [by rewrite buildPlaylist_steps, G, C|].
  split; [by rewrite length_take, (Permutation_length Perm)|].
  split.
  - intros t In. eapply elem_of_sublist; [|by eapply clean_from_sublist].
    rewrite <- Perm. eapply elem_of_sublist; [exact In | apply sublist_take].
  - intros Few. rewrite take_ge; [done|]. by rewrite (Permutation_length Perm).
Qed.

Lemma playlist_takes_all_it_can_witness :
  exists playlist,
    buildPlaylist sample_engine sample_world (tagset_value sample_tags)
      = (Ok playlist, sample_requests) /\
    length playlist = Nat.min 25 (length sample_unique) /\
    (forall t, t ∈ playlist -> t ∈ sample_gathered) /\
    ((length sample_unique <= 25)%nat -> playlist ≡ₚ sample_unique).
Proof.
  apply (playlist_takes_all_it_can sample_engine sample_world (tagset_value sample_tags)
           sample_gathered sample_unique sample_requests);
    vm_compute; reflexivity.
Defined.

(** ** Tags of another shape *)

Lemma batch_tracks_nil (W : World) (g : group) : batch_tracks W g [] = [].
Proof. reflexivity. Qed.

(** X10. Tags without lists: when [culturalTags], [artists] and [eraTags]
    are missing or falsy, [buildPlaylist] returns the empty playlist
    without a request. *)
Theorem buildPlaylist_without_lists (E : Engine) (W : World) (tags : value) :
  nullish tags = false ->
  truthy (opt_get tags "culturalTags") = false ->
  truthy (opt_get tags "artists") = false ->
  truthy (opt_get tags "eraTags") = false ->
  buildPlaylist E W tags = (Ok [], []).
Proof.
  intros Tags C A R.
  assert (Empty : forall field, truthy (opt_get tags field) = false ->
                  forall n, batch_items tags field n = Ok []).
  { intros field F n. unfold batch_items. rewrite (get_not_nullish _ _ Tags). simpl.
    unfold or_else. rewrite F. by rewrite take_nil. }
  rewrite buildPlaylist_steps. unfold gather, io_bind, lift, ret, run_batch.
  rewrite !Empty by done. simpl. by rewrite shuffle_nil.
Qed.

Lemma buildPlaylist_without_lists_witness :
  buildPlaylist sample_engine sample_world (VObj [("countryISO", VStr "Nigeria")])
    = (Ok [], []).
Proof.
  apply (buildPlaylist_without_lists sample_engine sample_world
           (VObj [("countryISO", VStr "Nigeria")])); reflexivity.
Defined.

Lemma buildPlaylist_TypeError (E : Engine) (W : World) (tags : value) (e : error) :
  fst (buildPlaylist E W tags) = Throw e -> e = TypeError.
Proof.
  rewrite buildPlaylist_steps.
  destruct (gather W tags) as [[allTracks|e'] made] eqn:G; simpl.
  - destruct (clean allTracks) as [unique|e'] eqn:C; [discriminate|].
    intros [= ->]. apply clean_from_Throw in C as (t & _ & K).
    by apply track_key_TypeError in K.
  - intros [= ->]. revert G. unfold gather, io_bind, lift, ret, run_batch.
    destruct (batch_items tags "culturalTags" 8) as [?|e1] eqn:B1;
      [|intros [= <- _]; by apply batch_items_TypeError in B1].
    destruct (batch_items tags "artists" 20) as [?|e2] eqn:B2;
      [|intros [= <- _]; by apply batch_items_TypeError in B2].
    destruct (batch_items tags "eraTags" 2) as [?|e3] eqn:B3;
      [discriminate | intros [= <- _]; by apply batch_items_TypeError in B3].
Qed.

(** X11. Tags with a text where a list should be: when [culturalTags] is
    truthy and not an array, [buildPlaylist] throws a TypeError before any
    request is sent; and [buildPlaylist] throws nothing but a TypeError. *)
Theorem buildPlaylist_rejects_other_shapes (E : Engine) (W : World) (tags : value) :
  (forall e, fst (buildPlaylist E W tags) = Throw e -> e = TypeError) /\
  (forall genres,
      opt_get tags "culturalTags" = genres ->
      truthy genres = true ->
      (forall items, genres <> VArr items) ->
      buildPlaylist E W tags = (Throw TypeError, [])).
Proof.
  split; [intros e; apply buildPlaylist_TypeError|].
  intros genres Field Truthy Other.
  assert (Tags : nullish tags = false) by (destruct tags; try done; by subst).
  rewrite buildPlaylist_steps. unfold gather, io_bind, lift, ret, batch_items.
  rewrite (get_not_nullish _ _ Tags), Field. simpl.
  unfold or_else. rewrite Truthy.
  destruct genres; try reflexivity. by destruct (Other items).
Qed.

Lemma buildPlaylist_rejects_other_shapes_witness :
  buildPlaylist sample_engine sample_world tags_with_text = (Throw TypeError, []).
Proof.
  destruct (buildPlaylist_rejects_other_shapes sample_engine sample_world tags_with_text)
    as [_ Text].
  apply (Text (VStr "highlife, juju")); [reflexivity | reflexivity | discriminate].
Defined.

(** ** The handler, stage by stage *)

Lemma getTagsFromGemini_steps (E : Engine) (W : World) (body : value) :
  getTagsFromGemini E W body =
  match buildUserMessage body with
  | Throw e => (Throw e, [])
  | Ok message =>
      (match gemini W message with
       | None => Throw UpstreamError
       | Some chunks =>
           match JSON_parse E (strip_fences (collect chunks)) with
           | Some tags => Ok tags
           | None => Throw SyntaxError
           end
       end, [CallGemini message])
  end.
Proof.
  unfold getTagsFromGemini, io_bind, lift.
  destruct (buildUserMessage body) as [message|e]; [|reflexivity].
  destruct (gemini W message) as [chunks|]; [|reflexivity].
  by destruct (JSON_parse E _).
Qed.

Lemma handler_steps (E : Engine) (W : World) (body : value) :
  handler E W body =
  match nothing_given body with
  | Throw e => (Status500 e, [])
  | Ok true => (refusal, [])
  | Ok false =>
      match getTagsFromGemini E W body with
      | (Throw e, made) => (Status500 e, made)
      | (Ok tags, made) =>
          match buildPlaylist E W tags with
          | (Ok playlist, more) => (Status200 tags playlist, made ++ more)
          | (Throw e, more) => (Status500 e, made ++ more)
          end
      end
  end.
Proof.
  unfold handler, io_bind, lift, ret.
  destruct (nothing_given body) as [[|]|e]; try reflexivity. simpl.
  destruct (getTagsFromGemini E W body) as [[tags|e] made]; [|reflexivity].
  destruct (buildPlaylist E W tags) as [[playlist|e] more]; [|reflexivity].
  by rewrite app_nil_r.
Qed.

Lemma nothing_given_TypeError (body : value) (e : error) :
  nothing_given body = Throw e -> e = TypeError.
Proof.
  unfold nothing_given. intros N.
  apply bind_Throw in N as [N|(b & _ & N)]; [by apply get_TypeError in N|].
  destruct (truthy b); [discriminate|].
  apply bind_Throw in N as [N|(h & _ & N)]; [by apply get_TypeError in N|].
  destruct (truthy h); [discriminate|].
  apply bind_Throw in N as [N|(l & _ & N)]; [by apply get_TypeError in N | discriminate].
Qed.

Lemma buildUserMessage_TypeError (body : value) (e : error) :
  buildUserMessage body = Throw e -> e = TypeError.
Proof.
  unfold buildUserMessage. intros M.
  do 6 (apply bind_Throw in M as [M|(? & _ & M)]; [by apply get_TypeError in M|]).
  do 3 (apply bind_Throw in M as [M|(? & _ & M)]; [by apply to_string_TypeError in M|]).
  apply bind_Throw in M as [M|(? & _ & M)].
  { destruct (truthy _); [|discriminate].
    apply bind_Throw in M as [M|(? & _ & M)]; [by apply to_string_TypeError in M|].
    discriminate. }
  apply bind_Throw in M as [M|(? & _ & M)].
  { destruct (truthy _); [|discriminate].
    apply bind_Throw in M as [M|(? & _ & M)]; [by apply to_string_TypeError in M|].
    discriminate. }
  apply bind_Throw in M as [M|(? & _ & M)]; [by apply to_string_TypeError in M|].
  discriminate.
Qed.

Lemma shuffle_forgiving (E : Engine) (W : World) (unique : list Track) :
  shuffle E (forgiving W) unique = shuffle E W unique.
Proof. reflexivity. Qed.

Lemma buildPlaylist_forgiving (E : Engine) (W : World) (tags : value) :
  buildPlaylist E (forgiving W) tags = buildPlaylist E W tags.
Proof. by rewrite !buildPlaylist_steps, gather_forgiving. Qed.

(** X12. Whether a lookup fails or is answered with no track makes no
    difference to the response of the handler, nor to the calls it
    makes. *)
Theorem handler_ignores_failed_lookups (E : Engine) (W : World) (body : value) :
  handler E (forgiving W) body = handler E W body.
Proof.
  rewrite !handler_steps, !getTagsFromGemini_steps.
  destruct (nothing_given body) as [[|]|e]; try reflexivity.
  destruct (buildUserMessage body) as [message|e]; [|reflexivity].
  change (gemini (forgiving W) message) with (gemini W message).
  destruct (gemini W message) as [chunks|]; [|reflexivity].
  destruct (JSON_parse E _) as [tags|]; [|reflexivity].
  by rewrite buildPlaylist_forgiving.
Qed.

(** X13. A 500 tells which stage failed. With an UpstreamError it is the
    generative-language call, and with a SyntaxError the parsing of its
    answer: in both cases that call is the only one made, and the
    music-metadata service is not asked. Every other failure is a
    TypeError. *)
Theorem server_error_names_the_stage (E : Engine) (W : World) (body : value) (e : error) :
  fst (handler E W body) = Status500 e ->
  match e with
  | UpstreamError =>
      exists message,
        buildUserMessage body = Ok message /\
        gemini W message = None /\
        snd (handler E W body) = [CallGemini message]
  | SyntaxError =>
      exists message chunks,
        buildUserMessage body = Ok message /\
        gemini W message = Some chunks /\
        JSON_parse E (strip_fences (collect chunks)) = None /\
        snd (handler E W body) = [CallGemini message]
  | TypeError => True
  end.
Proof.
  rewrite handler_steps, getTagsFromGemini_steps.
  destruct (nothing_given body) as [[|]|e'] eqn:N.
  - discriminate.
  - destruct (buildUserMessage body) as [message|e'] eqn:M.
    + destruct (gemini W message) as [chunks|] eqn:G.
      * destruct (JSON_parse E _) as [tags|] eqn:P.
        -- destruct (buildPlaylist E W tags) as [[playlist|e'] more] eqn:B; [discriminate|].
           intros [= <-].
           assert (e' = TypeError) as -> by (apply (buildPlaylist_TypeError E W tags); by rewrite B).
           done.
        -- intros [= <-]. by exists message, chunks.
      * intros [= <-]. by exists message.
    + intros [= <-]. by rewrite (buildUserMessage_TypeError _ _ M).
  - intros [= <-]. by rewrite (nothing_given_TypeError _ _ N).
Qed.

Lemma server_error_names_the_stage_witness :
  exists message,
    buildUserMessage (VObj form_body) = Ok message /\
    gemini (unreachable_gemini sample_world) message = None /\
    snd (handler sample_engine (unreachable_gemini sample_world) (VObj form_body))
      = [CallGemini message].
Proof.
  apply (server_error_names_the_stage sample_engine (unreachable_gemini sample_world)
           (VObj form_body) UpstreamError).
  reflexivity.
Defined.

(** X14. A 200 carries the tags parsed from the answer of the model and a
    playlist built from them: at most 25 tracks, no two of them with the
    same lower-cased (artist, name) pair; and something was given in the
    body. *)
Theorem success_carries_a_clean_playlist (E : Engine) (W : World) (body tags : value)
    (playlist : list Track) :
  fst (handler E W body) = Status200 tags playlist ->
  (length playlist <= 25)%nat /\
  NoDup (track_pair <$> playlist) /\
  nothing_given body = Ok false /\
  exists message chunks,
    buildUserMessage body = Ok message /\
    gemini W message = Some chunks /\
    JSON_parse E (strip_fences (collect chunks)) = Some tags /\
    fst (buildPlaylist E W tags) = Ok playlist.
Proof.
  rewrite handler_steps, getTagsFromGemini_steps.
  destruct (nothing_given body) as [[|]|e'] eqn:N; try discriminate.
  destruct (buildUserMessage body) as [message|e'] eqn:M; [|discriminate].
  destruct (gemini W message) as [chunks|] eqn:G; [|discriminate].
  destruct (JSON_parse E _) as [tags'|] eqn:P; [|discriminate].
  destruct (buildPlaylist E W tags') as [[playlist'|e'] more] eqn:B; [|discriminate].
  intros [= -> ->].
  pose proof (playlist_NoDup_keys E W tags playlist more B) as Keys.
  apply playlist_from_clean in B as (allTracks & unique & G' & C & ->).
  split; [rewrite length_take; lia|].
  split; [by apply NoDup_pairs_of_keys|].
  split; [done|]. exists message, chunks. repeat split; try done.
  by rewrite buildPlaylist_steps, G', C.
Qed.

Lemma success_carries_a_clean_playlist_witness :
  (length (@nil Track) <= 25)%nat /\
  NoDup (track_pair <$> []) /\
  nothing_given (VObj form_body) = Ok false /\
  exists message chunks,
    buildUserMessage (VObj form_body) = Ok message /\
    gemini sample_world message = Some chunks /\
    JSON_parse sample_engine (strip_fences (collect chunks)) = Some (VObj []) /\
    fst (buildPlaylist sample_engine sample_world (VObj [])) = Ok [].
Proof.
  apply (success_carries_a_clean_playlist sample_engine sample_world (VObj form_body)).
  reflexivity.
Defined.

(** X15. The calls of a request, in order: nothing, or one call to the
    generative-language service followed by at most 30 requests to the
    music-metadata service, each a top-tracks request with limit 40. *)
Theorem handler_call_discipline (E : Engine) (W : World) (body : value) :
  snd (handler E W body) = [] \/
  exists message lookups,
    snd (handler E W body) = CallGemini message :: lookups /\
    (length lookups <= 30)%nat /\
    Forall batch_request lookups.
Proof.
  rewrite handler_steps, getTagsFromGemini_steps.
  destruct (nothing_given body) as [[|]|e']; try by left.
  destruct (buildUserMessage body) as [message|e']; [|by left].
  right. exists message.
  destruct (gemini W message) as [chunks|];
    [|exists []; split; [done|]; split; [simpl; lia | constructor]].
  destruct (JSON_parse E _) as [tags|];
    [|exists []; split; [done|]; split; [simpl; lia | constructor]].
  pose proof (gather_requests W tags) as Bound.
  rewrite <- (buildPlaylist_gather_requests E) in Bound.
  destruct (buildPlaylist E W tags) as [[playlist|e'] more]; by exists more.
Qed.

(** ** Tag inference, further *)

Lemma strip_opening_other (s : string) :
  (forall rest, s <> "```" +:+ rest) -> strip_opening s = s.
Proof.
  intros Other. unfold strip_opening.
  destruct s as [|c1 s1]; [reflexivity|].
  destruct (Ascii.ascii_dec c1 "`") as [->|N1];
    [|destruct c1 as [[|] [|] [|] [|] [|] [|] [|] [|]]; try reflexivity; by destruct N1].
  destruct s1 as [|c2 s2]; [reflexivity|].
  destruct (Ascii.ascii_dec c2 "`") as [->|N2];
    [|destruct c2 as [[|] [|] [|] [|] [|] [|] [|] [|]]; try reflexivity; by destruct N2].
  destruct s2 as [|c3 rest]; [reflexivity|].
  destruct (Ascii.ascii_dec c3 "`") as [->|N3];
    [|destruct c3 as [[|] [|] [|] [|] [|] [|] [|] [|]]; try reflexivity; by destruct N3].
  by destruct (Other rest).
Qed.

Lemma strip_closing_other (s : string) :
  (forall before, s <> before +:+ "```") -> strip_closing s = s.
Proof.
  induction s as [|c rest IH]; intros Other; [reflexivity|].
  cbn [strip_closing].
  destruct (String.eqb (String c rest) "```") eqn:Same.
  - apply String.eqb_eq in Same. by destruct (Other EmptyString).
  - rewrite IH; [reflexivity|].
    intros before ->. by apply (Other (String c before)).
Qed.

(** X16. An answer wrapped in a fence that starts and ends the text, with
    or without a language tag, is parsed as its payload, trimmed: the
    result of Tag Inference is what [JSON.parse] makes of it. *)
Theorem exact_fence_is_stripped (E : Engine) (W : World) (body : value)
    (message : string) (chunks : list (option string)) (tag payload : string) :
  buildUserMessage body = Ok message ->
  gemini W message = Some chunks ->
  forallb is_letter (list_ascii_of_string tag) = true ->
  collect chunks = "```" +:+ tag +:+ LF +:+ payload +:+ "```" ->
  strip_fences (collect chunks) = trim payload /\
  getTagsFromGemini E W body =
    (match JSON_parse E (trim payload) with
     | Some tags => Ok tags
     | None => Throw SyntaxError
     end, [CallGemini message]).
Proof.
  intros M G Letters Text.
  assert (Strip : strip_fences (collect chunks) = trim payload).
  { rewrite Text. unfold strip_fences.
    by rewrite (strip_opening_fence tag _ Letters), strip_closing_fence. }
  split; [done|]. by rewrite (getTagsFromGemini_parses E W body message chunks M G), Strip.
Qed.

Lemma exact_fence_is_stripped_witness :
  strip_fences (collect [Some "```json"; Some (LF +:+ "{}" +:+ LF); Some "```"])
    = trim ("{}" +:+ LF) /\
  getTagsFromGemini sample_engine
    {| gemini := fun _ => Some [Some "```json"; Some (LF +:+ "{}" +:+ LF); Some "```"];
       lastfm := lastfm sample_world;
       completion_time := completion_time sample_world;
       random := random sample_world |}
    (VObj form_body) =
    (match JSON_parse sample_engine (trim ("{}" +:+ LF)) with
     | Some tags => Ok tags
     | None => Throw SyntaxError
     end,
     [CallGemini ("Birth Year: 1948" +:+ LF +:+ "Where They Grew Up: Lagos" +:+ LF
                  +:+ "Language Spoken: Yoruba" +:+ LF
                  +:+ "Songs They Resonated With: none provided")]).
Proof.
  apply (exact_fence_is_stripped sample_engine _ (VObj form_body) _
           [Some "```json"; Some (LF +:+ "{}" +:+ LF); Some "```"] "json" ("{}" +:+ LF));
    reflexivity.
Defined.

(** X17. An answer that neither starts nor ends with three backquotes is
    only trimmed before it is parsed. *)
Theorem unfenced_answer_is_trimmed (raw : string) :
  (forall rest, raw <> "```" +:+ rest) ->
  (forall before, raw <> before +:+ "```") ->
  strip_fences raw = trim raw.
Proof.
  intros Opening Closing. unfold strip_fences.
  by rewrite (strip_opening_other _ Opening), (strip_closing_other _ Closing).
Qed.

Lemma unfenced_answer_is_trimmed_witness :
  strip_fences (" {}" +:+ LF) = trim (" {}" +:+ LF).
Proof.
  apply (unfenced_answer_is_trimmed (" {}" +:+ LF)).
  - intros rest. discriminate.
  - intros [|c1 [|c2 [|c3 [|c4 before]]]]; simpl; try discriminate.
    intros [= _ _ _ _ Rest]. by destruct before.
Defined.

(** X18. The user message can be built for every body whose six profile
    fields are missing or hold a text, a number, a boolean or null: Tag
    Inference then reaches the generative-language service, with one
    call. *)
Theorem plain_profile_reaches_the_model (E : Engine) (W : World) (body : value) :
  nullish body = false ->
  primitive (opt_get body "birth_year") = true ->
  primitive (opt_get body "hometown") = true ->
  primitive (opt_get body "language") = true ->
  primitive (opt_get body "culture") = true ->
  primitive (opt_get body "life_period") = true ->
  primitive (opt_get body "resonant_songs") = true ->
  exists message,
    buildUserMessage body = Ok message /\
    snd (getTagsFromGemini E W body) = [CallGemini message].
Proof.
  intros Body B H L C P R.
  assert (Text : forall v fallback,
             primitive v = true -> exists s, to_string (or_else v (VStr fallback)) = Ok s).
  { intros v fallback Pv. apply to_string_primitive.
    unfold or_else. by destruct (truthy v). }
  assert (Line : forall v label,
             primitive v = true ->
             exists lines,
               (if truthy v then let* s := to_string v in Ok [label +:+ s] else Ok [])
               = Ok lines).
  { intros v label Pv. destruct (truthy v); [|eauto].
    destruct (to_string_primitive v Pv) as [s ->]. simpl. eauto. }
  assert (Built : exists message, buildUserMessage body = Ok message).
  { unfold buildUserMessage. rewrite !(get_not_nullish _ _ Body). cbn [bind].
    destruct (Text _ "unknown" B) as [b ->].
    destruct (Text _ "unknown" H) as [h ->].
    destruct (Text _ "unknown" L) as [l ->]. cbn [bind].
    destruct (Line _ "Cultural Background: " C) as [c ->].
    destruct (Line _ "Specific Life Period to Focus On: " P) as [p ->]. cbn [bind].
    destruct (Text _ "none provided" R) as [r ->]. cbn [bind]. eauto. }
  destruct Built as [message M]. exists message. split; [done|].
  rewrite getTagsFromGemini_steps, M. reflexivity.
Qed.

Lemma plain_profile_reaches_the_model_witness :
  exists message,
    buildUserMessage (VObj form_body) = Ok message /\
    snd (getTagsFromGemini sample_engine sample_world (VObj form_body))
      = [CallGemini message].
Proof.
  apply (plain_profile_reaches_the_model sample_engine sample_world (VObj form_body));
    reflexivity.
Defined.

(** ** Trimming *)

Lemma append_cons (c : ascii) (s t : string) :
  String c s +:+ t = String c (s +:+ t).
Proof. reflexivity. Qed.

Lemma append_empty_l (t : string) : EmptyString +:+ t = t.
Proof. reflexivity. Qed.

Lemma string_app_assoc (s1 s2 s3 : string) :
  (s1 +:+ s2) +:+ s3 = s1 +:+ (s2 +:+ s3).
Proof.
  induction s1 as [|c s1 IH]; [reflexivity|]. rewrite !append_cons. by f_equal.
Qed.

Lemma append_empty_r (s : string) : s +:+ EmptyString = s.
Proof.
  induction s as [|c s IH]; [reflexivity|]. rewrite append_cons. by f_equal.
Qed.

Lemma rev_app_append (s acc : string) :
  String.rev_app s acc = String.rev s +:+ acc.
Proof.
  unfold String.rev. revert acc. induction s as [|c s IH]; intros acc; [reflexivity|].
  cbn [String.rev_app]. rewrite (IH (String c acc)), (IH (String c EmptyString)).
  by rewrite string_app_assoc.
Qed.

Lemma rev_cons (c : ascii) (s : string) :
  String.rev (String c s) = String.rev s +:+ String c EmptyString.
Proof. unfold String.rev at 1. cbn [String.rev_app]. apply rev_app_append. Qed.

Lemma rev_append (s1 s2 : string) :
  String.rev (s1 +:+ s2) = String.rev s2 +:+ String.rev s1.
Proof.
  induction s1 as [|c s1 IH].
  - by rewrite append_empty_l, append_empty_r.
  - by rewrite append_cons, !rev_cons, IH, string_app_assoc.
Qed.

Lemma rev_rev (s : string) : String.rev (String.rev s) = s.
Proof.
  induction s as [|c s IH]; [reflexivity|].
  by rewrite rev_cons, rev_append, IH.
Qed.

Lemma trim_start_head (s : string) (c : ascii) (rest : string) :
  trim_start s = String c rest -> is_white c = false.
Proof.
  induction s as [|a s IH]; simpl; [discriminate|].
  destruct (is_white a) eqn:A; [done|]. by intros [= <- _].
Qed.

Lemma trim_start_split (s : string) :
  exists white, s = white +:+ trim_start s.
Proof.
  induction s as [|a s [white IH]]; [by exists EmptyString|].
  cbn [trim_start]. destruct (is_white a); [|by exists EmptyString].
  exists (String a white). rewrite append_cons. by f_equal.
Qed.

Lemma trim_ends (s : string) :
  (forall c rest, trim s = String c rest -> is_white c = false) /\
  (forall before c, trim s = before +:+ String c EmptyString -> is_white c = false).
Proof.
  unfold trim. set (t := trim_start s). set (u := trim_start (String.rev t)). split.
  - intros c rest Head.
    destruct (trim_start_split (String.rev t)) as [white Split]. fold u in Split.
    apply (f_equal String.rev) in Split.
    rewrite rev_rev, rev_append, Head, append_cons in Split.
    by apply (trim_start_head s c (rest +:+ String.rev white)).
  - intros before c Last.
    apply (f_equal String.rev) in Last.
    rewrite rev_rev, rev_append in Last.
    by apply (trim_start_head (String.rev t) c (String.rev before)).
Qed.

(** X19. What Tag Inference hands to [JSON.parse] has no white space at
    either end, whatever the model has streamed. *)
Theorem parsed_text_is_trimmed (raw : string) :
  (forall c rest, strip_fences raw = String c rest -> is_white c = false) /\
  (forall before c,
      strip_fences raw = before +:+ String c EmptyString -> is_white c = false).
Proof. apply trim_ends. Qed.

(** ** The artist of a track *)

(** X20. The artist of a normalised track: the name in the artist object
    of the record when that name is truthy; else the artist field itself
    when it is truthy, be it a text or an object without a name; else
    "Unknown". *)
Theorem normalised_artist (track : value) (src : string) (t : Track) :
  normaliseTrack track src = Ok t ->
  (truthy (opt_get (opt_get track "artist") "name") = true ->
   artist t = opt_get (opt_get track "artist") "name") /\
  (truthy (opt_get (opt_get track "artist") "name") = false ->
   truthy (opt_get track "artist") = true ->
   artist t = opt_get track "artist") /\
  (truthy (opt_get track "artist") = false -> artist t = VStr "Unknown").
Proof.
  intros N. apply normaliseTrack_Ok in N as (_ & _ & -> & _).
  unfold or_else. split; [|split].
  - intros Named. by rewrite !Named.
  - intros Unnamed Artist. by rewrite Unnamed, Artist.
  - intros Artist.
    assert (truthy (opt_get (opt_get track "artist") "name") = false) as ->
      by (by destruct (opt_get track "artist")).
    by rewrite Artist.
Qed.

Lemma normalised_artist_witness :
  exists t,
    normaliseTrack (raw_track "Zombie" "Fela Kuti") "genre:highlife" = Ok t /\
    artist t = VStr "Fela Kuti".
Proof.
  eexists. split; [reflexivity|].
  destruct (normalised_artist (raw_track "Zombie" "Fela Kuti") "genre:highlife" _ eq_refl)
    as [Named _].
  exact (Named eq_refl).
Defined.

(** ** The helpers *)

Lemma lookup_call_Ok (method : string) (item : value) (lim : Z) (c : lastfm_call) :
  lookup_call method item lim = Ok c <->
  exists s, to_string item = Ok s /\ c = mkCall method s lim.
Proof.
  unfold lookup_call. destruct (to_string item) as [s|e]; simpl; split.
  - intros [= <-]. eauto.
  - intros (s' & [= <-] & ->). reflexivity.
  - discriminate.
  - intros (s' & S & _). discriminate.
Qed.

(** X21. The two helpers reject with an UpstreamError exactly when
    the request could be made and its fetch failed: a request by tag with
    the limit given, 15 by default, a request by artist with the limit
    given, 8 by default. What they return is never falsy: without a track
    list in the answer it is the empty array. *)
Theorem helpers_fail_with_the_fetch (fetch : lastfm_call -> option value)
    (item : value) (lim : option Z) :
  (lastfmTagTopTracks fetch item lim = Throw UpstreamError <->
   exists s, to_string item = Ok s /\
             fetch (mkCall "tag.gettoptracks" s (default 15 lim)) = None) /\
  (lastfmArtistTopTracks fetch item lim = Throw UpstreamError <->
   exists s, to_string item = Ok s /\
             fetch (mkCall "artist.gettoptracks" s (default 8 lim)) = None) /\
  (forall tracks, lastfmTagTopTracks fetch item lim = Ok tracks -> truthy tracks = true) /\
  (forall tracks, lastfmArtistTopTracks fetch item lim = Ok tracks -> truthy tracks = true).
Proof.
  unfold lastfmTagTopTracks, lastfmArtistTopTracks, lookup_call.
  destruct (to_string item) as [s|e] eqn:S; simpl.
  - repeat split.
    + intros F. exists s. split; [done|]. by destruct (fetch _).
    + intros (s' & [= <-] & ->). reflexivity.
    + intros F. exists s. split; [done|]. by destruct (fetch _).
    + intros (s' & [= <-] & ->). reflexivity.
    + intros tracks. destruct (fetch _); [|discriminate].
      intros [= <-]. by apply or_else_fallback.
    + intros tracks. destruct (fetch _); [|discriminate].
      intros [= <-]. by apply or_else_fallback.
  - apply to_string_TypeError in S as ->.
    repeat split; try discriminate; by intros (s' & ? & _).
Qed.

(** ** A record that cannot be normalised *)

Lemma push_normalised_all (items : list value) (src : string) :
  Forall (fun item => exists t, normaliseTrack item src = Ok t) items ->
  length (push_normalised items src) = length items.
Proof.
  induction 1 as [|item rest [t N] _ IH]; simpl; [reflexivity|].
  rewrite N. simpl. by rewrite IH.
Qed.

(** X22. A record that [normaliseTrack] rejects ends the loop of its
    lookup: the tracks of the records before it stay on [allTracks], its
    own and those of the records after it never get there. *)
Theorem rejected_record_ends_the_loop (before after : list value) (bad : value)
    (src : string) (e : error) :
  normaliseTrack bad src = Throw e ->
  Forall (fun item => exists t, normaliseTrack item src = Ok t) before ->
  push_normalised (before ++ bad :: after) src = push_normalised before src /\
  length (push_normalised (before ++ bad :: after) src) = length before.
Proof.
  intros Bad Good.
  assert (Same : push_normalised (before ++ bad :: after) src = push_normalised before src).
  { induction Good as [|item rest [t N] _ IH]; simpl; [by rewrite Bad|].
    by rewrite N, IH. }
  split; [done|]. rewrite Same. by apply push_normalised_all.
Qed.

Lemma rejected_record_ends_the_loop_witness :
  push_normalised records_with_a_null "genre:highlife"
    = push_normalised [raw_track "Zombie" "Fela Kuti"] "genre:highlife" /\
  length (push_normalised records_with_a_null "genre:highlife") = 1%nat.
Proof.
  apply (rejected_record_ends_the_loop [raw_track "Zombie" "Fela Kuti"]
           [raw_track "Lady" "Fela Kuti"] VNull "genre:highlife" TypeError).
  - reflexivity.
  - repeat constructor. eexists. reflexivity.
Defined.
